(** * Intel Keystore DAL context registry (dal_context.c)

    A shallow embedding of the context / slot registry of the keystore
    driver, and the properties of its allocation, lookup and tear-down
    paths.

    Representation.  A kernel [struct list_head] chain is a Rocq list in
    traversal order (head->next first); every node carries the address of
    the object that embeds it, so pointer identity ([item == ctx],
    [list_del(pos)]) stays observable.  A pointer argument that the code
    only compares is an [option ptr]; a pointer argument that the code
    dereferences is the pointee, [None] standing for [NULL].  The global
    [dal_contexts] and the memory handed back to the slab allocator are
    threaded explicitly. *)

From Stdlib Require Import ZArith List Lia Bool Permutation.
From Stdlib Require Strings.Byte.
Import ListNotations.
Open Scope Z_scope.

(** ** Addresses, bytes and error numbers *)

Definition ptr := positive.

Definition byte := Byte.byte.

Definition zero_byte : byte := Byte.x00.

(** errno values used by the driver (asm-generic/errno-base.h). *)
Definition EFAULT : Z := 14.
Definition EINVAL : Z := 22.

(** [unsigned int] arithmetic wraps modulo 2^32. *)
Definition UINT_MODULUS : Z := 2 ^ 32.

(** ** Objects *)

(** Modelled from the spec: [struct dal_keystore_slot] is declared in
    dal_context.h, which is missing; the fields are the ones the source
    reads and writes ([slot_id], [wrapped_key], [wrapped_key_size]), the
    key being a buffer embedded in the slot. *)
Record dal_keystore_slot := mk_slot {
  slot_id : Z;
  wrapped_key : list byte;
  wrapped_key_size : Z
}.

(** Modelled from the spec: [struct dal_keystore_ctx] is declared in
    dal_context.h, which is missing; [slots] is the list of the slots the
    context owns, each with its address. *)
Record dal_keystore_ctx := mk_ctx {
  client_ticket : list byte;
  slots : list (ptr * dal_keystore_slot)
}.

(** What a block of allocator memory holds. *)
Inductive kobject :=
| KSlot (s : dal_keystore_slot)
| KCtx (c : dal_keystore_ctx).

(** The blocks returned to the allocator, most recent first, each with the
    contents it had at the moment of its release. *)
Definition slab := list (ptr * kobject).

(** The state the driver works on: the global list and the allocator. *)
Record kernel := mk_kernel {
  dal_contexts : list (ptr * dal_keystore_ctx);
  released : slab
}.

(** [LIST_HEAD_INIT(dal_contexts)], nothing released yet. *)
Definition boot : kernel := {| dal_contexts := []; released := [] |}.

(** ** Kernel helpers *)

(** Modelled from the spec: [list_add] of linux/list.h is missing; it links
    the new entry right after the head, so the entry comes first in a
    traversal. *)
Definition list_add {A : Type} (new : ptr * A) (head : list (ptr * A))
  : list (ptr * A) :=
  new :: head.

(** Modelled from the spec: [list_del] of linux/list.h is missing; it
    unlinks the entry at the given address. *)
Fixpoint list_del {A : Type} (entry : ptr) (head : list (ptr * A))
  : list (ptr * A) :=
  match head with
  | [] => []
  | (p, x) :: q => if Pos.eqb p entry then q else (p, x) :: list_del entry q
  end.

(** Modelled from the spec: [memcmp] of the kernel's string library is
    missing; it returns the difference of the first pair of bytes that
    differ among the first [count], and 0 when there is none.  Buffers
    shorter than [count] are outside its contract; they are compared as
    far as they go. *)
Fixpoint memcmp (cs ct : list byte) (count : nat) {struct count} : Z :=
  match count with
  | O => 0
  | S n =>
      match cs, ct with
      | a :: cs', b :: ct' =>
          let res := Z.of_N (Byte.to_N a) - Z.of_N (Byte.to_N b) in
          if res =? 0 then memcmp cs' ct' n else res
      | [], [] => 0
      | [], _ :: _ => -1
      | _ :: _, [] => 1
      end
  end.

Definition memzero_slot (s : dal_keystore_slot) : dal_keystore_slot :=
  {| slot_id := 0;
     wrapped_key := map (fun _ => zero_byte) (wrapped_key s);
     wrapped_key_size := 0 |}.

Definition memzero_ctx (c : dal_keystore_ctx) : dal_keystore_ctx :=
  {| client_ticket := map (fun _ => zero_byte) (client_ticket c);
     slots := [] |}.

(** The object after [memset(mem, 0, ksize(mem))]. *)
Definition memzero (o : kobject) : kobject :=
  match o with
  | KSlot s => KSlot (memzero_slot s)
  | KCtx c => KCtx (memzero_ctx c)
  end.

(** Modelled from the spec: [kzfree] of the slab allocator is missing; it
    overwrites the whole object with zero bytes and then releases it. *)
Definition kzfree (mem : ptr) (o : kobject) (m : slab) : slab :=
  (mem, memzero o) :: m.

(** Modelled from the spec: [kzalloc] of the slab allocator is missing; it
    returns a zero-filled object or [NULL].  The address it picks, or its
    failure, is an input [mem] of the caller. *)
Definition kzalloc {A : Type} (zeroed : A) (mem : option ptr)
  : option (ptr * A) :=
  match mem with
  | Some p => Some (p, zeroed)
  | None => None
  end.

(** Is every byte of the object zero? *)
Definition zero_bytes (l : list byte) : bool :=
  forallb (Byte.eqb zero_byte) l.

Definition zero_filled (o : kobject) : bool :=
  match o with
  | KSlot s =>
      (slot_id s =? 0) && (wrapped_key_size s =? 0) && zero_bytes (wrapped_key s)
  | KCtx c =>
      zero_bytes (client_ticket c) && match slots c with [] => true | _ => false end
  end.

(** The number [list_for_each(pos, head) cnt++] leaves in an
    [unsigned int] counter. *)
Fixpoint list_count {A : Type} (head : list A) (cnt : Z) : Z :=
  match head with
  | [] => cnt
  | _ :: q => list_count q ((cnt + 1) mod UINT_MODULUS)
  end.

(** ** Energy model (include/linux/energy_model.h)

    A capacity-state table is the array and the count the structure
    holds; [unsigned long] values are integers below [2 ^ bits].  A read
    outside the array or a division by zero has no defined result, which
    is [None]. *)

Record em_cap_state := mk_cap_state {
  capacity : Z;
  frequency : Z;
  power : Z
}.

Record em_cs_table := mk_cs_table {
  state : list em_cap_state;
  nr_cap_states : Z
}.

(** [cs_table] is an RCU pointer, [None] when it is NULL. *)
Record em_freq_domain := mk_freq_domain {
  cs_table : option em_cs_table
}.

(** [&table->state[i]] read through. *)
Definition em_state_at (t : em_cs_table) (i : Z) : option em_cap_state :=
  if i <? 0 then None else nth_error (state t) (Z.to_nat i).

(** The [for (i = 0; i < cs_table->nr_cap_states; i++)] loop of
    [em_fd_energy], returning [cs] as the loop leaves it; [fuel] bounds the
    number of iterations. *)
Fixpoint em_lowest_state_above (t : em_cs_table) (freq : Z) (fuel : nat)
    (i : Z) (cs : em_cap_state) : option em_cap_state :=
  match fuel with
  | O => Some cs
  | S n =>
      if i <? nr_cap_states t then
        match em_state_at t i with
        | Some cs' =>
            if frequency cs' >=? freq then Some cs'
            else em_lowest_state_above t freq n (i + 1) cs'
        | None => None
        end
      else Some cs
  end.

(** [em_fd_energy] under CONFIG_ENERGY_MODEL.  [map_util_freq] is declared
    in linux/sched/cpufreq.h, which is missing, and is taken as given. *)
Definition em_fd_energy (map_util_freq : Z -> Z -> Z -> Z) (bits : Z)
    (fd : em_freq_domain) (max_util sum_util : Z) : option Z :=
  match cs_table fd with
  | None => Some 0
  | Some t =>
      match em_state_at t (nr_cap_states t - 1) with
      | None => None
      | Some top =>
          let freq := map_util_freq max_util (frequency top) (capacity top) in
          match em_lowest_state_above t freq (Z.to_nat (nr_cap_states t)) 0 top with
          | None => None
          | Some cs =>
              if capacity cs =? 0 then None
              else Some ((power cs * sum_util) mod 2 ^ bits / capacity cs)
          end
      end
  end.

(** The state [em_fd_energy] is meant to pick in a table: the first one
    whose frequency reaches [freq], the last one when none does. *)
Definition em_pick (st : list em_cap_state) (freq : Z) (top : em_cap_state)
  : em_cap_state :=
  match find (fun cs => frequency cs >=? freq) st with
  | Some cs => cs
  | None => last st top
  end.

(** A sample table of three capacity states, and the mapping of a
    utilization to a frequency with a quarter of headroom. *)
Definition sample_table : em_cs_table :=
  {| state := [ {| capacity := 256; frequency := 500; power := 100 |};
                {| capacity := 512; frequency := 1000; power := 300 |};
                {| capacity := 1024; frequency := 2000; power := 900 |} ];
     nr_cap_states := 3 |}.

Definition sample_map_util_freq (util freq cap : Z) : Z :=
  (freq + Z.shiftr freq 2) * util / cap.

(** ** Sample data

    Two tickets that differ in their last byte, slots with and without key
    material, and a few registries, for the instances at the end. *)

Definition ticket_a : list byte := [Byte.x0a; Byte.x01].
Definition ticket_b : list byte := [Byte.x0a; Byte.x02].
Definition blank_ticket : list byte := [Byte.x00; Byte.x00].

Definition blank_slot (id : Z) : dal_keystore_slot :=
  {| slot_id := id;
     wrapped_key := [Byte.x00; Byte.x00; Byte.x00; Byte.x00];
     wrapped_key_size := 0 |}.

Definition loaded_slot (id : Z) : dal_keystore_slot :=
  {| slot_id := id;
     wrapped_key := [Byte.xde; Byte.xad; Byte.xbe; Byte.xef];
     wrapped_key_size := 4 |}.

Definition blank_ctx : dal_keystore_ctx :=
  {| client_ticket := blank_ticket; slots := [] |}.

(** A context that holds the ids 2 and 0. *)
Definition ctx_ids_2_0 : dal_keystore_ctx :=
  {| client_ticket := ticket_a;
     slots := [(5%positive, loaded_slot 2); (3%positive, loaded_slot 0)] |}.

(** The registry after two allocations of a context, at addresses 1 and
    then 2, the tickets not yet filled in. *)
Definition two_blank_contexts : kernel :=
  {| dal_contexts := [(2%positive, blank_ctx); (1%positive, blank_ctx)];
     released := [] |}.

(** One context, with ticket [ticket_a] and two slots with keys. *)
Definition one_loaded_context : kernel :=
  {| dal_contexts := [(1%positive, ctx_ids_2_0)]; released := [] |}.

(** One context with one slot. *)
Definition one_slot_context : kernel :=
  {| dal_contexts :=
       [(1%positive,
         {| client_ticket := blank_ticket;
            slots := [(2%positive, blank_slot 0)] |})];
     released := [] |}.

(** One context after three slots were allocated at addresses 2, 3 and 4
    and the second one, with id 1, was freed. *)
Definition context_after_free : kernel :=
  {| dal_contexts :=
       [(1%positive,
         {| client_ticket := blank_ticket;
            slots := [(4%positive, blank_slot 2); (2%positive, blank_slot 0)] |})];
     released := [(3%positive, KSlot (blank_slot 0))] |}.

(** Closes [NoDup l] for a list of distinct literals. *)
Ltac distinct_by_cases :=
  repeat (apply NoDup_cons; [simpl; intuition discriminate |]);
  apply NoDup_nil.

Section Keystore.

(** Modelled from the spec: the limits and sizes are macros of the missing
    headers (maximum number of client contexts, maximum number of slots per
    context, ticket length, size of the wrapped-key buffer). *)
Variable DAL_KEYSTORE_CLIENTS_MAX : Z.
Variable DAL_KEYSTORE_SLOTS_MAX : Z.
Variable KEYSTORE_CLIENT_TICKET_SIZE : nat.
Variable KEYSTORE_WRAPPED_KEY_SIZE : nat.

(** What [kzalloc(sizeof(struct dal_keystore_ctx))] returns. *)
Definition zeroed_ctx : dal_keystore_ctx :=
  {| client_ticket := repeat zero_byte KEYSTORE_CLIENT_TICKET_SIZE;
     slots := [] |}.

(** What [kzalloc(sizeof(struct dal_keystore_slot))] returns. *)
Definition zeroed_slot : dal_keystore_slot :=
  {| slot_id := 0;
     wrapped_key := repeat zero_byte KEYSTORE_WRAPPED_KEY_SIZE;
     wrapped_key_size := 0 |}.

(** ** Contexts *)

Definition init_context_struct (ctx : option dal_keystore_ctx)
  : option dal_keystore_ctx :=
  match ctx with
  | Some c => Some {| client_ticket := client_ticket c; slots := [] |}
  | None => None
  end.

(** The [list_for_each_safe] loop of [deinit_context_struct]: [todo] is
    what is left to visit, [cur] the list as it stands. *)
Fixpoint deinit_slots (todo cur : list (ptr * dal_keystore_slot)) (m : slab)
  : list (ptr * dal_keystore_slot) * slab :=
  match todo with
  | [] => (cur, m)
  | (pos, item) :: q =>
      deinit_slots q (list_del pos cur) (kzfree pos (KSlot item) m)
  end.

Definition deinit_context_struct (ctx : option dal_keystore_ctx) (m : slab)
  : option dal_keystore_ctx * slab :=
  match ctx with
  | Some c =>
      let (l, m') := deinit_slots (slots c) (slots c) m in
      (Some {| client_ticket := client_ticket c; slots := l |}, m')
  | None => (None, m)
  end.

(** Body of the three loops that destroy a context: tear the slots down,
    unlink, release. *)
Definition destroy_context (pos : ptr) (item : dal_keystore_ctx) (k : kernel)
  : kernel :=
  match deinit_context_struct (Some item) (released k) with
  | (Some item', m) =>
      {| dal_contexts := list_del pos (dal_contexts k);
         released := kzfree pos (KCtx item') m |}
  | (None, m) =>
      (* [item] is never NULL *)
      {| dal_contexts := list_del pos (dal_contexts k);
         released := kzfree pos (KCtx item) m |}
  end.

Fixpoint free_contexts_loop (todo : list (ptr * dal_keystore_ctx)) (k : kernel)
  : kernel :=
  match todo with
  | [] => k
  | (pos, item) :: q => free_contexts_loop q (destroy_context pos item k)
  end.

Definition dal_keystore_free_contexts (k : kernel) : kernel :=
  free_contexts_loop (dal_contexts k) k.

Definition dal_keystore_allocate_context (mem : option ptr) (k : kernel)
  : option ptr * kernel :=
  let cnt := list_count (dal_contexts k) 0 in
  if cnt <? DAL_KEYSTORE_CLIENTS_MAX then
    match kzalloc zeroed_ctx mem with
    | Some (item, c) =>
        match init_context_struct (Some c) with
        | Some c' =>
            (Some item,
             {| dal_contexts := list_add (item, c') (dal_contexts k);
                released := released k |})
        | None => (Some item, k)
        end
    | None => (None, k)
    end
  else (None, k).

Fixpoint free_context_ctx_loop (ctx : ptr)
    (todo : list (ptr * dal_keystore_ctx)) (k : kernel) : Z * kernel :=
  match todo with
  | [] => (- EINVAL, k)
  | (pos, item) :: q =>
      if Pos.eqb pos ctx then (0, destroy_context pos item k)
      else free_context_ctx_loop ctx q k
  end.

Definition dal_keystore_free_context_ctx (ctx : option ptr) (k : kernel)
  : Z * kernel :=
  match ctx with
  | None => (- EFAULT, k)
  | Some c => free_context_ctx_loop c (dal_contexts k) k
  end.

Fixpoint free_context_ticket_loop (ticket : list byte)
    (todo : list (ptr * dal_keystore_ctx)) (k : kernel) : Z * kernel :=
  match todo with
  | [] => (- EINVAL, k)
  | (pos, item) :: q =>
      if memcmp ticket (client_ticket item) KEYSTORE_CLIENT_TICKET_SIZE =? 0
      then (0, destroy_context pos item k)
      else free_context_ticket_loop ticket q k
  end.

Definition dal_keystore_free_context_ticket (ticket : option (list byte))
    (k : kernel) : Z * kernel :=
  match ticket with
  | None => (- EFAULT, k)
  | Some t => free_context_ticket_loop t (dal_contexts k) k
  end.

Fixpoint find_context_ticket_loop (ticket : list byte)
    (todo : list (ptr * dal_keystore_ctx)) : option ptr :=
  match todo with
  | [] => None
  | (pos, item) :: q =>
      if memcmp ticket (client_ticket item) KEYSTORE_CLIENT_TICKET_SIZE =? 0
      then Some pos
      else find_context_ticket_loop ticket q
  end.

(** A lookup: it reads [dal_contexts] and writes nothing. *)
Definition dal_keystore_find_context_ticket (ticket : option (list byte))
    (k : kernel) : option ptr :=
  match ticket with
  | None => None
  | Some t => find_context_ticket_loop t (dal_contexts k)
  end.

(** ** Slots *)

Fixpoint find_slot_loop (todo : list (ptr * dal_keystore_slot)) (id : Z)
  : option ptr :=
  match todo with
  | [] => None
  | (pos, item) :: q =>
      if slot_id item =? id then Some pos else find_slot_loop q id
  end.

(** A lookup: it reads [ctx->slots] and writes nothing.  [list_entry]
    never yields NULL, so the [if (item)] of the loop body always holds. *)
Definition dal_keystore_find_slot_id (ctx : option dal_keystore_ctx) (id : Z)
  : option ptr :=
  match ctx with
  | None => None
  | Some c =>
      if (id <? 0) || (id >=? DAL_KEYSTORE_SLOTS_MAX) then None
      else find_slot_loop (slots c) id
  end.

(** The [for (id = 0; id < DAL_KEYSTORE_SLOTS_MAX; id++)] loop of
    [dal_keystore_allocate_slot], returning the value of [id] when it is
    left; [fuel] bounds the number of iterations.  [id] never exceeds the
    limit, an [int] constant, so the [int] does not overflow. *)
Fixpoint lowest_unused_id (ctx : option dal_keystore_ctx) (fuel : nat) (id : Z)
  : Z :=
  match fuel with
  | O => id
  | S n =>
      if id <? DAL_KEYSTORE_SLOTS_MAX then
        match dal_keystore_find_slot_id ctx id with
        | None => id
        | Some _ => lowest_unused_id ctx n (id + 1)
        end
      else id
  end.

Definition set_slot_id (s : dal_keystore_slot) (id : Z) : dal_keystore_slot :=
  {| slot_id := id;
     wrapped_key := wrapped_key s;
     wrapped_key_size := wrapped_key_size s |}.

Definition dal_keystore_allocate_slot (ctx : option dal_keystore_ctx)
    (mem : option ptr) : option ptr * option dal_keystore_ctx :=
  match ctx with
  | None => (None, None)
  | Some c =>
      let id := lowest_unused_id ctx (Z.to_nat DAL_KEYSTORE_SLOTS_MAX) 0 in
      if id <? DAL_KEYSTORE_SLOTS_MAX then
        match kzalloc zeroed_slot mem with
        | Some (item, s) =>
            (Some item,
             Some {| client_ticket := client_ticket c;
                     slots := list_add (item, set_slot_id s id) (slots c) |})
        | None => (None, Some c)
        end
      else (None, Some c)
  end.

Fixpoint free_slot_loop (todo : list (ptr * dal_keystore_slot)) (id : Z)
    (c : dal_keystore_ctx) (m : slab) : Z * dal_keystore_ctx * slab :=
  match todo with
  | [] => (- EINVAL, c, m)
  | (pos, item) :: q =>
      if slot_id item =? id then
        (0,
         {| client_ticket := client_ticket c;
            slots := list_del pos (slots c) |},
         kzfree pos (KSlot item) m)
      else free_slot_loop q id c m
  end.

Definition dal_keystore_free_slot_id (ctx : option dal_keystore_ctx) (id : Z)
    (m : slab) : Z * option dal_keystore_ctx * slab :=
  match ctx with
  | None => (- EFAULT, None, m)
  | Some c =>
      if (id <? 0) || (id >=? DAL_KEYSTORE_SLOTS_MAX) then (- EINVAL, Some c, m)
      else
        let '(res, c', m') := free_slot_loop (slots c) id c m in
        (res, Some c', m')
  end.

(** ** The driver seen from its callers

    The ioctl layer holds context and slot pointers, calls the functions
    above on them and fills in the ticket and the key of what it was
    handed. *)

(** The pointee of a context pointer. *)
Fixpoint ctx_at (p : ptr) (l : list (ptr * dal_keystore_ctx))
  : option dal_keystore_ctx :=
  match l with
  | [] => None
  | (q, c) :: r => if Pos.eqb q p then Some c else ctx_at p r
  end.

(** A store through a pointer: the object at [p] becomes [f] of itself. *)
Definition update_at {A : Type} (p : ptr) (f : A -> A) (l : list (ptr * A))
  : list (ptr * A) :=
  map (fun e => if Pos.eqb (fst e) p then (fst e, f (snd e)) else e) l.

(** Modelled from the spec: [memcpy] of the kernel's string library is
    missing; the first [n] bytes of [dst] become those of [src]. *)
Definition memcpy (dst src : list byte) (n : nat) : list byte :=
  firstn n src ++ skipn n dst.

Inductive call :=
| AllocateContext (mem : option ptr)
| FreeContextCtx (ctx : option ptr)
| FreeContextTicket (ticket : option (list byte))
| FreeContexts
| FindContextTicket (ticket : option (list byte))
| AllocateSlot (ctx : option ptr) (mem : option ptr)
| FreeSlotId (ctx : option ptr) (id : Z)
| FindSlotId (ctx : option ptr) (id : Z)
| WriteTicket (ctx : ptr) (ticket : list byte)
| WriteKey (ctx : ptr) (slot : ptr) (key : list byte).

(** Runs a function of a context pointer on the pointee of [ctx] and
    stores what it leaves there. *)
Definition with_ctx (ctx : option ptr) (k : kernel)
    (f : option dal_keystore_ctx -> slab -> option dal_keystore_ctx * slab)
  : kernel :=
  match ctx with
  | None =>
      {| dal_contexts := dal_contexts k; released := snd (f None (released k)) |}
  | Some p =>
      match ctx_at p (dal_contexts k) with
      | Some c =>
          match f (Some c) (released k) with
          | (Some c', m) =>
              {| dal_contexts := update_at p (fun _ => c') (dal_contexts k);
                 released := m |}
          | (None, m) => {| dal_contexts := dal_contexts k; released := m |}
          end
      | None => k
      end
  end.

(** Modelled from the spec: the ioctl layer is missing; it fills in the
    ticket of a context after allocating it. *)
Definition write_ticket (ticket : list byte) (c : dal_keystore_ctx)
  : dal_keystore_ctx :=
  {| client_ticket :=
       memcpy (client_ticket c) ticket KEYSTORE_CLIENT_TICKET_SIZE;
     slots := slots c |}.

(** Modelled from the spec: the ioctl layer is missing; it stores the
    wrapped key and its size in a slot it was handed. *)
Definition write_key (key : list byte) (s : dal_keystore_slot)
  : dal_keystore_slot :=
  {| slot_id := slot_id s;
     wrapped_key := memcpy (wrapped_key s) key (length key);
     wrapped_key_size := Z.of_nat (length key) |}.

(** The state a call leaves. *)
Definition exec (c : call) (k : kernel) : kernel :=
  match c with
  | AllocateContext mem => snd (dal_keystore_allocate_context mem k)
  | FreeContextCtx ctx => snd (dal_keystore_free_context_ctx ctx k)
  | FreeContextTicket ticket => snd (dal_keystore_free_context_ticket ticket k)
  | FreeContexts => dal_keystore_free_contexts k
  | FindContextTicket _ => k
  | AllocateSlot ctx mem =>
      with_ctx ctx k (fun c m => (snd (dal_keystore_allocate_slot c mem), m))
  | FreeSlotId ctx id =>
      with_ctx ctx k (fun c m =>
        let '(_, c', m') := dal_keystore_free_slot_id c id m in (c', m'))
  | FindSlotId _ _ => k
  | WriteTicket ctx ticket =>
      {| dal_contexts := update_at ctx (write_ticket ticket) (dal_contexts k);
         released := released k |}
  | WriteKey ctx slot key =>
      {| dal_contexts :=
           update_at ctx
             (fun c => {| client_ticket := client_ticket c;
                          slots := update_at slot (write_key key) (slots c) |})
             (dal_contexts k);
         released := released k |}
  end.

(** The addresses of the live objects. *)
Definition live_ptrs (k : kernel) : list ptr :=
  flat_map (fun e => fst e :: map fst (slots (snd e))) (dal_contexts k).

Definition is_ctx (p : ptr) (k : kernel) : bool :=
  existsb (Pos.eqb p) (map fst (dal_contexts k)).

(** The allocator never hands out the address of a live object. *)
Definition fresh (mem : option ptr) (k : kernel) : bool :=
  match mem with
  | Some p => negb (existsb (Pos.eqb p) (live_ptrs k))
  | None => true
  end.

(** A pointer a caller may pass where the code dereferences it. *)
Definition null_or_ctx (ctx : option ptr) (k : kernel) : bool :=
  match ctx with
  | Some p => is_ctx p k
  | None => true
  end.

(** What the callers and the allocator guarantee at a call. *)
Definition valid_call (c : call) (k : kernel) : bool :=
  match c with
  | AllocateContext mem => fresh mem k
  | AllocateSlot ctx mem => null_or_ctx ctx k && fresh mem k
  | FreeSlotId ctx _ => null_or_ctx ctx k
  | FindSlotId ctx _ => null_or_ctx ctx k
  | WriteTicket ctx ticket =>
      is_ctx ctx k && (KEYSTORE_CLIENT_TICKET_SIZE <=? length ticket)%nat
  | WriteKey ctx _ key =>
      is_ctx ctx k && (length key <=? KEYSTORE_WRAPPED_KEY_SIZE)%nat
  | _ => true
  end.

(** The live contexts in the order of their allocation, youngest first, as
    the history of calls gives it: a context enters when a call allocates
    it and leaves when it is no longer live. *)
Definition born_after (c : call) (k : kernel) (born : list ptr) : list ptr :=
  let alive := filter (fun p => is_ctx p (exec c k)) born in
  match c with
  | AllocateContext mem =>
      match fst (dal_keystore_allocate_context mem k) with
      | Some p => p :: alive
      | None => alive
      end
  | _ => alive
  end.

(** The states the driver can be in, with the contexts in order of birth. *)
Inductive reachable : kernel -> list ptr -> Prop :=
| reachable_boot : reachable boot []
| reachable_call (c : call) (k : kernel) (born : list ptr) :
    reachable k born ->
    valid_call c k = true ->
    reachable (exec c k) (born_after c k born).

(** The ids in use in a context, in list order. *)
Definition slot_ids (c : dal_keystore_ctx) : list Z :=
  map (fun e => slot_id (snd e)) (slots c).

(** Does the ticket match the context's over the ticket length? *)
Definition ticket_matches (ticket : list byte) (c : dal_keystore_ctx) : Prop :=
  firstn KEYSTORE_CLIENT_TICKET_SIZE ticket =
  firstn KEYSTORE_CLIENT_TICKET_SIZE (client_ticket c).

(** ** Derived notions used in the statements *)

(** The context after a slot with the given id was linked in at [item]. *)
Definition with_new_slot (c : dal_keystore_ctx) (item : ptr) (id : Z)
  : dal_keystore_ctx :=
  {| client_ticket := client_ticket c;
     slots := (item, set_slot_id zeroed_slot id) :: slots c |}.

(** The images of the slots of a list once [kzfree] went over them in list
    order: the last one freed is first. *)
Definition slot_images (l : list (ptr * dal_keystore_slot)) : slab :=
  rev (map (fun e => (fst e, KSlot (memzero_slot (snd e)))) l).

(** What destroying a context hands back to the allocator. *)
Definition ctx_images (pos : ptr) (item : dal_keystore_ctx) : slab :=
  (pos, KCtx (memzero_ctx item)) :: slot_images (slots item).

Fixpoint drained (l : list (ptr * dal_keystore_ctx)) (m : slab) : slab :=
  match l with
  | [] => m
  | (pos, item) :: q => drained q (ctx_images pos item ++ m)
  end.

(** The blocks [m'] holds on top of [m] are zero-filled, and the slots of
    [gone] are among them, each with its whole key buffer. *)
Definition erased (gone : ptr * dal_keystore_slot -> Prop) (m m' : slab) : Prop :=
  exists new,
    m' = new ++ m /\
    (forall b, In b new -> zero_filled (snd b) = true) /\
    (forall p s, gone (p, s) -> In (p, KSlot (memzero_slot s)) new).

(** The slots of the registry. *)
Definition slot_of (k : kernel) (e : ptr * dal_keystore_slot) : Prop :=
  exists p c, In (p, c) (dal_contexts k) /\ In e (slots c).

Ltac ids_by_lia := unfold slot_ids; simpl; intros; lia.

(** Successive allocations in one context, at the addresses the allocator
    picks, in the order of the calls. *)
Fixpoint allocate_slots (c : dal_keystore_ctx) (mems : list ptr)
  : option dal_keystore_ctx :=
  match mems with
  | [] => Some c
  | p :: q =>
      match dal_keystore_allocate_slot (Some c) (Some p) with
      | (Some _, Some c') => allocate_slots c' q
      | _ => None
      end
  end.

(** The address the allocator hands to a call that allocates a slot. *)
Definition slot_mem (c : call) : option ptr :=
  match c with
  | AllocateSlot _ mem => mem
  | _ => None
  end.

(** What a call can do to the context it is given, [new] being the address
    of the slot it may link in. *)
Inductive ctx_change (new : option ptr) (c c' : dal_keystore_ctx) : Prop :=
| change_none : c' = c -> ctx_change new c c'
| change_alloc (item : ptr) (id : Z) :
    new = Some item ->
    0 <= id < DAL_KEYSTORE_SLOTS_MAX ->
    ~ In id (slot_ids c) ->
    c' = with_new_slot c item id ->
    ctx_change new c c'
| change_free (p : ptr) :
    c' = {| client_ticket := client_ticket c;
            slots := list_del p (slots c) |} ->
    ctx_change new c c'
| change_ticket (ticket : list byte) :
    c' = write_ticket ticket c -> ctx_change new c c'
| change_key (q : ptr) (key : list byte) :
    c' = {| client_ticket := client_ticket c;
            slots := update_at q (write_key key) (slots c) |} ->
    ctx_change new c c'.

(** What a call other than the allocation of a context can do to
    [dal_contexts]. *)
Inductive registry_change (new : option ptr)
    (l l' : list (ptr * dal_keystore_ctx)) : Prop :=
| registry_del (p : ptr) : l' = list_del p l -> registry_change new l l'
| registry_empty : l' = [] -> registry_change new l l'
| registry_touch :
    map fst l' = map fst l ->
    (forall p c', In (p, c') l' ->
       In (p, c') l \/ exists c, In (p, c) l /\ ctx_change new c c') ->
    registry_change new l l'.

(** Every context of the list satisfies [P]. *)
Definition every_ctx (P : dal_keystore_ctx -> Prop)
    (l : list (ptr * dal_keystore_ctx)) : Prop :=
  forall p c, In (p, c) l -> P c.

Definition ids_unique (c : dal_keystore_ctx) : Prop := NoDup (slot_ids c).

Definition ids_in_range (c : dal_keystore_ctx) : Prop :=
  forall id, In id (slot_ids c) -> 0 <= id < DAL_KEYSTORE_SLOTS_MAX.

(** The slots of a context are at distinct addresses. *)
Definition slots_apart (c : dal_keystore_ctx) : Prop :=
  NoDup (map fst (slots c)).

(** Is [a] the address of a slot of the context at [q]? *)
Definition slot_at (q a : ptr) (k : kernel) : bool :=
  match ctx_at q (dal_contexts k) with
  | Some c => existsb (Pos.eqb a) (map fst (slots c))
  | None => false
  end.

(** The live slots of the context at [q] in the order of their allocation,
    youngest first, as the history of calls gives it: a slot enters when a
    call allocates it in that context and leaves when it is no longer a
    slot of it. *)
Definition slots_born_after (c : call) (k : kernel) (h : ptr -> list ptr)
    (q : ptr) : list ptr :=
  let alive := filter (fun a => slot_at q a (exec c k)) (h q) in
  match c with
  | AllocateSlot (Some p) mem =>
      if Pos.eqb p q then
        match fst (dal_keystore_allocate_slot (ctx_at p (dal_contexts k)) mem) with
        | Some item => item :: alive
        | None => alive
        end
      else alive
  | _ => alive
  end.

(** The states the driver can be in, with the contexts in order of birth
    and, for each context, its slots in order of birth. *)
Inductive slot_history : kernel -> list ptr -> (ptr -> list ptr) -> Prop :=
| slot_history_boot : slot_history boot [] (fun _ => [])
| slot_history_call (c : call) (k : kernel) (born : list ptr)
    (h : ptr -> list ptr) :
    slot_history k born h ->
    valid_call c k = true ->
    slot_history (exec c k) (born_after c k born) (slots_born_after c k h).

(** ** Helpers: bytes and lists *)

Lemma byte_to_N_inj (a b : byte) : Byte.to_N a = Byte.to_N b -> a = b.
Proof.
  intros H.
  pose proof (Byte.of_to_N a) as Ha.
  pose proof (Byte.of_to_N b) as Hb.
  rewrite H in Ha. congruence.
Qed.

Lemma memcmp_zero_iff (cs ct : list byte) (count : nat) :
  memcmp cs ct count = 0 <-> firstn count cs = firstn count ct.
Proof.
  revert cs ct.
  induction count as [|n IH]; intros cs ct; simpl.
  - split; reflexivity.
  - destruct cs as [|a cs], ct as [|b ct]; try (split; [lia | discriminate]).
    + split; reflexivity.
    + destruct (Z.eqb_spec (Z.of_N (Byte.to_N a) - Z.of_N (Byte.to_N b)) 0)
        as [E|E].
      * assert (a = b) by (apply byte_to_N_inj; lia). subst b.
        rewrite IH. split; intros H; [now rewrite H | now inversion H].
      * split; [lia |].
        intros H. inversion H. subst b. lia.
Qed.

Lemma memcmp_eqb_true (cs ct : list byte) (count : nat) :
  (memcmp cs ct count =? 0) = true <-> firstn count cs = firstn count ct.
Proof. rewrite Z.eqb_eq. apply memcmp_zero_iff. Qed.

Lemma memcmp_eqb_false (cs ct : list byte) (count : nat) :
  (memcmp cs ct count =? 0) = false <-> firstn count cs <> firstn count ct.
Proof. rewrite Z.eqb_neq, memcmp_zero_iff. tauto. Qed.

Lemma list_del_head {A : Type} (p : ptr) (x : A) (q : list (ptr * A)) :
  list_del p ((p, x) :: q) = q.
Proof. simpl. now rewrite Pos.eqb_refl. Qed.

Lemma list_del_In {A : Type} (p : ptr) (l : list (ptr * A)) (e : ptr * A) :
  In e (list_del p l) -> In e l.
Proof.
  induction l as [|[q x] l IH]; simpl; [tauto |].
  destruct (Pos.eqb q p); simpl; intuition.
Qed.

Lemma list_del_middle {A : Type} (p : ptr) (x : A) (l1 l2 : list (ptr * A)) :
  ~ In p (map fst l1) ->
  list_del p (l1 ++ (p, x) :: l2) = l1 ++ l2.
Proof.
  induction l1 as [|[q y] l1 IH]; simpl; intros H.
  - now rewrite Pos.eqb_refl.
  - destruct (Pos.eqb_spec q p) as [->|N]; [tauto |].
    rewrite IH; tauto.
Qed.

Lemma list_del_NoDup_map {A B : Type} (f : ptr * A -> B) (p : ptr)
    (l : list (ptr * A)) :
  NoDup (map f l) -> NoDup (map f (list_del p l)).
Proof.
  induction l as [|[q x] l IH]; simpl; intros H; [assumption |].
  inversion H as [|? ? Hn Hd]; subst.
  destruct (Pos.eqb q p); [assumption |].
  simpl. constructor; [| now apply IH].
  intros Hin. apply Hn.
  apply in_map_iff in Hin. destruct Hin as [e [He Hin]].
  apply in_map_iff. exists e. split; [assumption |].
  eapply list_del_In; eassumption.
Qed.

Lemma list_del_length {A : Type} (p : ptr) (l : list (ptr * A)) :
  (length (list_del p l) <= length l)%nat.
Proof.
  induction l as [|[q x] l IH]; simpl; [lia |].
  destruct (Pos.eqb q p); simpl; lia.
Qed.

Lemma existsb_eqb_In (p : ptr) (l : list ptr) :
  existsb (Pos.eqb p) l = true <-> In p l.
Proof.
  rewrite existsb_exists. split.
  - intros [q [Hq E]]. apply Pos.eqb_eq in E. now subst.
  - intros H. exists p. split; [assumption | apply Pos.eqb_refl].
Qed.

(** ** Helpers: slot lookup and the id scan *)

Lemma find_slot_loop_none (l : list (ptr * dal_keystore_slot)) (id : Z) :
  find_slot_loop l id = None <-> ~ In id (map (fun e => slot_id (snd e)) l).
Proof.
  induction l as [|[p s] l IH]; simpl; [tauto |].
  destruct (Z.eqb_spec (slot_id s) id) as [E|E].
  - split; [discriminate | tauto].
  - rewrite IH. tauto.
Qed.

Lemma find_slot_loop_some (l : list (ptr * dal_keystore_slot)) (id : Z)
    (p : ptr) :
  find_slot_loop l id = Some p ->
  exists l1 s l2,
    l = l1 ++ (p, s) :: l2 /\ slot_id s = id /\
    ~ In id (map (fun e => slot_id (snd e)) l1).
Proof.
  induction l as [|[q s] l IH]; simpl; [discriminate |].
  destruct (Z.eqb_spec (slot_id s) id) as [E|E].
  - intros H. inversion H. subst q.
    exists [], s, l. simpl. tauto.
  - intros H. destruct (IH H) as [l1 [s' [l2 [-> [Hs Hn]]]]].
    exists ((q, s) :: l1), s', l2. simpl. intuition.
Qed.

Lemma find_slot_id_in_range (c : dal_keystore_ctx) (id : Z) :
  0 <= id < DAL_KEYSTORE_SLOTS_MAX ->
  dal_keystore_find_slot_id (Some c) id = find_slot_loop (slots c) id.
Proof.
  intros H. unfold dal_keystore_find_slot_id.
  destruct (Z.ltb_spec id 0); [lia |].
  destruct (Z.geb_spec id DAL_KEYSTORE_SLOTS_MAX); [lia | reflexivity].
Qed.

(** The scan leaves the loop at the first unused id, and the fuel it is
    given is enough to get there. *)
Lemma lowest_unused_id_spec (c : dal_keystore_ctx) (fuel : nat) (id : Z) :
  0 <= id ->
  DAL_KEYSTORE_SLOTS_MAX - id <= Z.of_nat fuel ->
  let r := lowest_unused_id (Some c) fuel id in
  id <= r /\
  (forall j, id <= j < r -> In j (slot_ids c)) /\
  (r < DAL_KEYSTORE_SLOTS_MAX -> ~ In r (slot_ids c)) /\
  (DAL_KEYSTORE_SLOTS_MAX <= r -> r = Z.max id DAL_KEYSTORE_SLOTS_MAX).
Proof.
  revert id.
  induction fuel as [|n IH]; intros id Hid Hfuel; cbn [lowest_unused_id].
  - repeat split; try lia.
  - destruct (Z.ltb_spec id DAL_KEYSTORE_SLOTS_MAX) as [Hlt|Hge].
    + rewrite find_slot_id_in_range by lia.
      destruct (find_slot_loop (slots c) id) as [p|] eqn:F.
      * assert (Hin : In id (slot_ids c)).
        { destruct (find_slot_loop_some _ _ _ F) as [l1 [s [l2 [E [Hs _]]]]].
          unfold slot_ids. rewrite E, map_app, in_app_iff. simpl. tauto. }
        destruct (IH (id + 1)) as [H1 [H2 [H3 H4]]]; try lia.
        repeat split; try lia; try assumption.
        intros j Hj. destruct (Z.eq_dec j id) as [->|N]; [assumption |].
        apply H2. lia.
      * apply find_slot_loop_none in F.
        repeat split; try lia. intros _. exact F.
    + repeat split; try lia.
Qed.

(** More fuel than the bound changes nothing: the loop has terminated. *)
Lemma lowest_unused_id_fuel (c : dal_keystore_ctx) (fuel extra : nat) (id : Z) :
  0 <= id ->
  DAL_KEYSTORE_SLOTS_MAX - id <= Z.of_nat fuel ->
  lowest_unused_id (Some c) (fuel + extra) id = lowest_unused_id (Some c) fuel id.
Proof.
  revert id.
  induction fuel as [|n IH]; intros id Hid Hfuel.
  - cbn [Nat.add lowest_unused_id].
    destruct extra; cbn [lowest_unused_id]; [reflexivity |].
    destruct (Z.ltb_spec id DAL_KEYSTORE_SLOTS_MAX); [lia | reflexivity].
  - cbn [Nat.add lowest_unused_id].
    destruct (Z.ltb_spec id DAL_KEYSTORE_SLOTS_MAX); [| reflexivity].
    destruct (dal_keystore_find_slot_id (Some c) id); [| reflexivity].
    apply IH; lia.
Qed.

Lemma allocate_slot_inv (c : dal_keystore_ctx) (mem item : option ptr)
    (ctx' : option dal_keystore_ctx) :
  dal_keystore_allocate_slot (Some c) mem = (item, ctx') ->
  let id := lowest_unused_id (Some c) (Z.to_nat DAL_KEYSTORE_SLOTS_MAX) 0 in
  (exists p, item = Some p /\ mem = Some p /\
             id < DAL_KEYSTORE_SLOTS_MAX /\ ctx' = Some (with_new_slot c p id))
  \/ (item = None /\ ctx' = Some c /\
      (mem = None \/ DAL_KEYSTORE_SLOTS_MAX <= id)).
Proof.
  unfold dal_keystore_allocate_slot.
  destruct (Z.ltb_spec (lowest_unused_id (Some c)
                          (Z.to_nat DAL_KEYSTORE_SLOTS_MAX) 0)
                       DAL_KEYSTORE_SLOTS_MAX) as [Hlt|Hge].
  - destruct mem as [p|]; simpl; intros H; inversion H; subst.
    + left. exists p. auto.
    + right. auto.
  - intros H. inversion H. subst. right. auto.
Qed.

Lemma lowest_unused_id_unique (c : dal_keystore_ctx) (id : Z) :
  0 <= id < DAL_KEYSTORE_SLOTS_MAX ->
  ~ In id (slot_ids c) ->
  (forall j, 0 <= j < id -> In j (slot_ids c)) ->
  lowest_unused_id (Some c) (Z.to_nat DAL_KEYSTORE_SLOTS_MAX) 0 = id.
Proof.
  intros Hr Hfree Hused.
  destruct (lowest_unused_id_spec c (Z.to_nat DAL_KEYSTORE_SLOTS_MAX) 0)
    as [H1 [H2 [H3 H4]]]; try lia.
  set (r := lowest_unused_id (Some c) (Z.to_nat DAL_KEYSTORE_SLOTS_MAX) 0) in *.
  destruct (Z.lt_trichotomy r id) as [L|[E|G]]; [| exact E |].
  - exfalso. apply H3; [lia |]. apply Hused. lia.
  - exfalso. apply Hfree. apply H2. lia.
Qed.

Lemma allocate_slot_at (c : dal_keystore_ctx) (item : ptr) (id : Z) :
  0 <= id < DAL_KEYSTORE_SLOTS_MAX ->
  ~ In id (slot_ids c) ->
  (forall j, 0 <= j < id -> In j (slot_ids c)) ->
  dal_keystore_allocate_slot (Some c) (Some item)
  = (Some item, Some (with_new_slot c item id)).
Proof.
  intros Hr Hfree Hused.
  unfold dal_keystore_allocate_slot.
  rewrite (lowest_unused_id_unique c id Hr Hfree Hused).
  destruct (Z.ltb_spec id DAL_KEYSTORE_SLOTS_MAX); [reflexivity | lia].
Qed.

(** A successful allocation links in a slot whose id is the smallest
    integer of [0, DAL_KEYSTORE_SLOTS_MAX) that no slot of the context
    uses, whatever the slot list holds. *)
Lemma allocate_slot_picks_lowest (c : dal_keystore_ctx) (mem : option ptr)
    (item : ptr) (ctx' : option dal_keystore_ctx) :
  dal_keystore_allocate_slot (Some c) mem = (Some item, ctx') ->
  exists id,
    ctx' = Some (with_new_slot c item id) /\
    0 <= id < DAL_KEYSTORE_SLOTS_MAX /\
    ~ In id (slot_ids c) /\
    (forall j, 0 <= j < id -> In j (slot_ids c)).
Proof.
  intros H. apply allocate_slot_inv in H. cbv zeta in H.
  destruct H as [[p [Hp [_ [Hlt Hc]]]]|[Hn _]]; [| discriminate].
  inversion Hp. subst p.
  destruct (lowest_unused_id_spec c (Z.to_nat DAL_KEYSTORE_SLOTS_MAX) 0)
    as [H1 [H2 [H3 _]]]; try lia.
  eexists. split; [exact Hc |].
  repeat split; try lia; auto.
Qed.

(** ** Helpers: the loops that free *)

Lemma list_del_In_or {A : Type} (p : ptr) (l : list (ptr * A)) (e : ptr * A) :
  In e l -> fst e = p \/ In e (list_del p l).
Proof.
  induction l as [|[q x] l IH]; simpl; [tauto |].
  intros [E|H].
  - subst e. simpl. destruct (Pos.eqb_spec q p); [tauto | simpl; tauto].
  - destruct (Pos.eqb_spec q p); [tauto |]. simpl. tauto.
Qed.

Lemma NoDup_fst_In_eq {A : Type} (l : list (ptr * A)) (p : ptr) (x y : A) :
  NoDup (map fst l) -> In (p, x) l -> In (p, y) l -> x = y.
Proof.
  induction l as [|[q z] l IH]; simpl; [tauto |].
  intros Hnd Hx Hy. inversion Hnd as [|? ? Hn Hd]; subst.
  destruct Hx as [Ex|Hx], Hy as [Ey|Hy].
  - congruence.
  - inversion Ex; subst. exfalso. apply Hn.
    apply in_map_iff. exists (p, y). auto.
  - inversion Ey; subst. exfalso. apply Hn.
    apply in_map_iff. exists (p, x). auto.
  - now apply IH.
Qed.

Lemma free_slot_loop_miss (l : list (ptr * dal_keystore_slot)) (id : Z)
    (c : dal_keystore_ctx) (m : slab) :
  ~ In id (map (fun e => slot_id (snd e)) l) ->
  free_slot_loop l id c m = (- EINVAL, c, m).
Proof.
  induction l as [|[p s] l IH]; simpl; intros H; [reflexivity |].
  destruct (Z.eqb_spec (slot_id s) id); [tauto |].
  apply IH. tauto.
Qed.

Lemma free_slot_loop_hit (l : list (ptr * dal_keystore_slot)) (id : Z)
    (c : dal_keystore_ctx) (m : slab) :
  In id (map (fun e => slot_id (snd e)) l) ->
  exists l1 p s l2,
    l = l1 ++ (p, s) :: l2 /\ slot_id s = id /\
    ~ In id (map (fun e => slot_id (snd e)) l1) /\
    free_slot_loop l id c m
    = (0,
       {| client_ticket := client_ticket c;
          slots := list_del p (slots c) |},
       kzfree p (KSlot s) m).
Proof.
  induction l as [|[p s] l IH]; simpl; [tauto |].
  destruct (Z.eqb_spec (slot_id s) id) as [E|E].
  - intros _. exists [], p, s, l. simpl. tauto.
  - intros [H|H]; [tauto |].
    destruct (IH H) as [l1 [q [s' [l2 [-> [Hs [Hn Hr]]]]]]].
    exists ((p, s) :: l1), q, s', l2. simpl. intuition.
Qed.

Lemma deinit_slots_all (l : list (ptr * dal_keystore_slot)) (m : slab) :
  deinit_slots l l m = ([], slot_images l ++ m).
Proof.
  revert m.
  induction l as [|[p s] l IH]; intros m; [reflexivity |].
  cbn [deinit_slots]. rewrite list_del_head, IH.
  unfold slot_images, kzfree. simpl.
  now rewrite <- app_assoc.
Qed.

Lemma deinit_context_struct_eq (c : dal_keystore_ctx) (m : slab) :
  deinit_context_struct (Some c) m
  = (Some {| client_ticket := client_ticket c; slots := [] |},
     slot_images (slots c) ++ m).
Proof. unfold deinit_context_struct. now rewrite deinit_slots_all. Qed.

Lemma destroy_context_eq (pos : ptr) (item : dal_keystore_ctx) (k : kernel) :
  destroy_context pos item k
  = {| dal_contexts := list_del pos (dal_contexts k);
       released := ctx_images pos item ++ released k |}.
Proof. unfold destroy_context. now rewrite deinit_context_struct_eq. Qed.

Lemma free_contexts_loop_eq (l : list (ptr * dal_keystore_ctx)) (k : kernel) :
  dal_contexts k = l ->
  free_contexts_loop l k
  = {| dal_contexts := []; released := drained l (released k) |}.
Proof.
  revert k.
  induction l as [|[pos item] l IH]; intros k Hk; simpl.
  - destruct k as [l0 m]. simpl in *. now subst.
  - rewrite IH.
    + now rewrite destroy_context_eq.
    + rewrite destroy_context_eq. simpl. rewrite Hk. apply list_del_head.
Qed.

Lemma free_context_ctx_loop_spec (ctx : ptr)
    (todo : list (ptr * dal_keystore_ctx)) (k : kernel) :
  (~ In ctx (map fst todo) /\
   free_context_ctx_loop ctx todo k = (- EINVAL, k))
  \/
  (exists l1 item l2,
     todo = l1 ++ (ctx, item) :: l2 /\ ~ In ctx (map fst l1) /\
     free_context_ctx_loop ctx todo k = (0, destroy_context ctx item k)).
Proof.
  induction todo as [|[pos item] todo IH]; simpl.
  - left. tauto.
  - destruct (Pos.eqb_spec pos ctx) as [->|N].
    + right. exists [], item, todo. simpl. tauto.
    + destruct IH as [[Hn Hr]|[l1 [it [l2 [-> [Hn Hr]]]]]].
      * left. tauto.
      * right. exists ((pos, item) :: l1), it, l2. simpl. tauto.
Qed.

Lemma free_context_ticket_loop_spec (ticket : list byte)
    (todo : list (ptr * dal_keystore_ctx)) (k : kernel) :
  ((forall e, In e todo -> ~ ticket_matches ticket (snd e)) /\
   free_context_ticket_loop ticket todo k = (- EINVAL, k))
  \/
  (exists l1 pos item l2,
     todo = l1 ++ (pos, item) :: l2 /\
     (forall e, In e l1 -> ~ ticket_matches ticket (snd e)) /\
     ticket_matches ticket item /\
     free_context_ticket_loop ticket todo k = (0, destroy_context pos item k)).
Proof.
  induction todo as [|[pos item] todo IH]; simpl.
  - left. tauto.
  - destruct (memcmp ticket (client_ticket item) KEYSTORE_CLIENT_TICKET_SIZE =? 0)
      eqn:E.
    + apply memcmp_eqb_true in E.
      right. exists [], pos, item, todo. simpl. tauto.
    + apply memcmp_eqb_false in E.
      destruct IH as [[Hn Hr]|[l1 [q [it [l2 [-> [Hn [Hm Hr]]]]]]]].
      * left. split; [| assumption].
        intros e [<-|He]; [exact E | now apply Hn].
      * right. exists ((pos, item) :: l1), q, it, l2. simpl.
        repeat split; try assumption.
        intros e [<-|He]; [exact E | now apply Hn].
Qed.

Lemma find_context_ticket_loop_spec (ticket : list byte)
    (todo : list (ptr * dal_keystore_ctx)) :
  ((forall e, In e todo -> ~ ticket_matches ticket (snd e)) /\
   find_context_ticket_loop ticket todo = None)
  \/
  (exists l1 pos item l2,
     todo = l1 ++ (pos, item) :: l2 /\
     (forall e, In e l1 -> ~ ticket_matches ticket (snd e)) /\
     ticket_matches ticket item /\
     find_context_ticket_loop ticket todo = Some pos).
Proof.
  induction todo as [|[pos item] todo IH]; simpl.
  - left. tauto.
  - destruct (memcmp ticket (client_ticket item) KEYSTORE_CLIENT_TICKET_SIZE =? 0)
      eqn:E.
    + apply memcmp_eqb_true in E.
      right. exists [], pos, item, todo. simpl. tauto.
    + apply memcmp_eqb_false in E.
      destruct IH as [[Hn Hr]|[l1 [q [it [l2 [-> [Hn [Hm Hr]]]]]]]].
      * left. split; [| assumption].
        intros e [<-|He]; [exact E | now apply Hn].
      * right. exists ((pos, item) :: l1), q, it, l2. simpl.
        repeat split; try assumption.
        intros e [<-|He]; [exact E | now apply Hn].
Qed.

(** ** Helpers: what is released is zero *)

Lemma zero_bytes_memset (l : list byte) :
  zero_bytes (map (fun _ => zero_byte) l) = true.
Proof. induction l as [|a l IH]; simpl; [reflexivity | exact IH]. Qed.

Lemma slot_images_zero (l : list (ptr * dal_keystore_slot)) (b : ptr * kobject) :
  In b (slot_images l) -> zero_filled (snd b) = true.
Proof.
  unfold slot_images. rewrite <- in_rev, in_map_iff.
  intros [e [<- _]]. simpl. apply zero_bytes_memset.
Qed.

Lemma slot_images_In (l : list (ptr * dal_keystore_slot)) (p : ptr)
    (s : dal_keystore_slot) :
  In (p, s) l -> In (p, KSlot (memzero_slot s)) (slot_images l).
Proof.
  intros H. unfold slot_images. rewrite <- in_rev, in_map_iff.
  exists (p, s). auto.
Qed.

Lemma ctx_images_zero (pos : ptr) (item : dal_keystore_ctx) (b : ptr * kobject) :
  In b (ctx_images pos item) -> zero_filled (snd b) = true.
Proof.
  intros [<-|H].
  - simpl. now rewrite zero_bytes_memset.
  - eapply slot_images_zero; eassumption.
Qed.

Lemma drained_spec (l : list (ptr * dal_keystore_ctx)) (m : slab) :
  erased (fun e => exists p c, In (p, c) l /\ In e (slots c)) m (drained l m).
Proof.
  revert m.
  induction l as [|[pos item] l IH]; intros m; simpl.
  - exists []. simpl. split; [reflexivity |]. split; [tauto |].
    intros p s [q [c [[] _]]].
  - destruct (IH (ctx_images pos item ++ m)) as [new [E [Hz Hg]]].
    exists (new ++ ctx_images pos item).
    split; [now rewrite <- app_assoc |]. split.
    + intros b Hb. apply in_app_iff in Hb. destruct Hb as [Hb|Hb].
      * now apply Hz.
      * eapply ctx_images_zero; eassumption.
    + intros p s [q [c [[Eq|Hin] Hs]]]; apply in_app_iff.
      * inversion Eq; subst. right. right. now apply slot_images_In.
      * left. apply Hg. exists q, c. auto.
Qed.

Lemma destroy_context_erased (pos : ptr) (item : dal_keystore_ctx) (k : kernel) :
  NoDup (map fst (dal_contexts k)) ->
  In (pos, item) (dal_contexts k) ->
  erased (fun e => slot_of k e /\ ~ slot_of (destroy_context pos item k) e)
         (released k) (released (destroy_context pos item k)).
Proof.
  intros Hnd Hin. rewrite destroy_context_eq. simpl.
  exists (ctx_images pos item). split; [reflexivity |]. split.
  - intros b. apply ctx_images_zero.
  - intros q s [[p [c [Hc Hs]]] Hgone].
    destruct (list_del_In_or pos _ _ Hc) as [E|Hkeep].
    + simpl in E. subst p.
      rewrite (NoDup_fst_In_eq _ _ _ _ Hnd Hin Hc).
      right. now apply slot_images_In.
    + exfalso. apply Hgone. exists p, c. simpl. auto.
Qed.

(** C3: every path that destroys a slot ([dal_keystore_free_slot_id], the
    two functions that free one context, [dal_keystore_free_contexts])
    hands its memory back through [kzfree]: the blocks a call releases are
    zero-filled when they are released, and every slot the call removes is
    among them with its whole wrapped-key buffer overwritten. *)
Theorem destroyed_slots_are_zeroed :
  (forall c id m c' m',
      NoDup (map fst (slots c)) ->
      dal_keystore_free_slot_id (Some c) id m = (0, Some c', m') ->
      erased (fun e => In e (slots c) /\ ~ In e (slots c')) m m')
  /\
  (forall ctx k k',
      NoDup (map fst (dal_contexts k)) ->
      dal_keystore_free_context_ctx ctx k = (0, k') ->
      erased (fun e => slot_of k e /\ ~ slot_of k' e) (released k) (released k'))
  /\
  (forall ticket k k',
      NoDup (map fst (dal_contexts k)) ->
      dal_keystore_free_context_ticket ticket k = (0, k') ->
      erased (fun e => slot_of k e /\ ~ slot_of k' e) (released k) (released k'))
  /\
  (forall k,
      dal_contexts (dal_keystore_free_contexts k) = [] /\
      erased (slot_of k) (released k) (released (dal_keystore_free_contexts k))).
Proof.
  repeat split.
  - intros c id m c' m' Hnd H.
    unfold dal_keystore_free_slot_id in H.
    destruct ((id <? 0) || (id >=? DAL_KEYSTORE_SLOTS_MAX));
      [inversion H |].
    destruct (in_dec Z.eq_dec id (map (fun e => slot_id (snd e)) (slots c)))
      as [Hin|Hout].
    + destruct (free_slot_loop_hit _ id c m Hin)
        as [l1 [p [s [l2 [E [Hs [Hn Hr]]]]]]].
      rewrite Hr in H. inversion H; subst c' m'. clear H. simpl.
      exists [(p, memzero (KSlot s))]. split; [reflexivity |]. split.
      * intros b [<-|[]]. simpl. apply zero_bytes_memset.
      * intros q s' [Hq Hgone].
        destruct (list_del_In_or p _ _ Hq) as [Eq|Hkeep]; [| tauto].
        simpl in Eq. subst q.
        assert (Hps : In (p, s) (slots c))
          by (rewrite E; apply in_app_iff; simpl; tauto).
        rewrite (NoDup_fst_In_eq _ _ _ _ Hnd Hq Hps). simpl. tauto.
    + rewrite (free_slot_loop_miss _ id c m Hout) in H. inversion H.
  - intros [ctx|] k k' Hnd H; simpl in H; [| inversion H].
    destruct (free_context_ctx_loop_spec ctx (dal_contexts k) k)
      as [[_ Hr]|[l1 [item [l2 [E [_ Hr]]]]]];
      rewrite Hr in H; inversion H. subst k'.
    apply destroy_context_erased; [assumption |].
    rewrite E. apply in_app_iff. simpl. tauto.
  - intros [ticket|] k k' Hnd H; simpl in H; [| inversion H].
    destruct (free_context_ticket_loop_spec ticket (dal_contexts k) k)
      as [[_ Hr]|[l1 [pos [item [l2 [E [_ [_ Hr]]]]]]]];
      rewrite Hr in H; inversion H. subst k'.
    apply destroy_context_erased; [assumption |].
    rewrite E. apply in_app_iff. simpl. tauto.
  - unfold dal_keystore_free_contexts.
    now rewrite free_contexts_loop_eq.
  - unfold dal_keystore_free_contexts.
    rewrite free_contexts_loop_eq by reflexivity. simpl.
    apply drained_spec.
Qed.

(** ** Slot ids *)

(** C1: a successful [dal_keystore_allocate_slot] gives the new slot the
    smallest id of [0, DAL_KEYSTORE_SLOTS_MAX) that no slot of the context
    uses, whatever the slot list holds; and a fresh context gets the ids
    0, 1 and 2 from three allocations (the limit allowing three slots) and,
    once id 1 is freed, id 1 again from the next one, not 3. *)
Theorem allocate_slot_lowest_free_id :
  (forall c mem item ctx',
      dal_keystore_allocate_slot (Some c) mem = (Some item, ctx') ->
      exists id,
        ctx' = Some (with_new_slot c item id) /\
        0 <= id < DAL_KEYSTORE_SLOTS_MAX /\
        ~ In id (slot_ids c) /\
        (forall j, 0 <= j < id -> In j (slot_ids c)))
  /\
  (forall ticket a b d e m,
      3 <= DAL_KEYSTORE_SLOTS_MAX ->
      d <> b ->
      let c0 := {| client_ticket := ticket; slots := [] |} in
      exists c1 c2 c3 c4 c5 m',
        dal_keystore_allocate_slot (Some c0) (Some a) = (Some a, Some c1) /\
        slot_ids c1 = [0] /\
        dal_keystore_allocate_slot (Some c1) (Some b) = (Some b, Some c2) /\
        slot_ids c2 = [1; 0] /\
        dal_keystore_allocate_slot (Some c2) (Some d) = (Some d, Some c3) /\
        slot_ids c3 = [2; 1; 0] /\
        dal_keystore_free_slot_id (Some c3) 1 m = (0, Some c4, m') /\
        slot_ids c4 = [2; 0] /\
        dal_keystore_allocate_slot (Some c4) (Some e) = (Some e, Some c5) /\
        slot_ids c5 = [1; 2; 0]).
Proof.
  split; [exact allocate_slot_picks_lowest |].
  intros ticket a b d e m Hmax Hdb c0.
  set (c1 := with_new_slot c0 a 0).
  set (c2 := with_new_slot c1 b 1).
  set (c3 := with_new_slot c2 d 2).
  set (c4 := {| client_ticket := ticket;
                slots := [(d, set_slot_id zeroed_slot 2);
                          (a, set_slot_id zeroed_slot 0)] |}).
  exists c1, c2, c3, c4, (with_new_slot c4 e 1),
         (kzfree b (KSlot (set_slot_id zeroed_slot 1)) m).
  repeat split.
  - apply allocate_slot_at; ids_by_lia.
  - apply allocate_slot_at; ids_by_lia.
  - apply allocate_slot_at; ids_by_lia.
  - unfold dal_keystore_free_slot_id.
    destruct (Z.geb_spec 1 DAL_KEYSTORE_SLOTS_MAX); [lia |].
    simpl. apply Pos.eqb_neq in Hdb. now rewrite Hdb, Pos.eqb_refl.
  - apply allocate_slot_at; ids_by_lia.
Qed.

(** ** Error returns *)

(** C6, as the code has it: [dal_keystore_free_slot_id] returns [-EFAULT]
    for a NULL context, [-EINVAL] for an id outside
    [0, DAL_KEYSTORE_SLOTS_MAX) and the same [-EINVAL] for an id in range
    that no slot has; otherwise it returns 0, unlinks the first slot with
    that id, leaves the others in place and releases the one it unlinked. *)
Theorem free_slot_id_results :
  (forall id m, dal_keystore_free_slot_id None id m = (- EFAULT, None, m))
  /\
  (forall c id m,
      ~ 0 <= id < DAL_KEYSTORE_SLOTS_MAX ->
      dal_keystore_free_slot_id (Some c) id m = (- EINVAL, Some c, m))
  /\
  (forall c id m,
      0 <= id < DAL_KEYSTORE_SLOTS_MAX ->
      ~ In id (slot_ids c) ->
      dal_keystore_free_slot_id (Some c) id m = (- EINVAL, Some c, m))
  /\
  (forall c id m,
      0 <= id < DAL_KEYSTORE_SLOTS_MAX ->
      In id (slot_ids c) ->
      NoDup (map fst (slots c)) ->
      exists l1 p s l2,
        slots c = l1 ++ (p, s) :: l2 /\
        slot_id s = id /\
        ~ In id (map (fun e => slot_id (snd e)) l1) /\
        dal_keystore_free_slot_id (Some c) id m
        = (0,
           Some {| client_ticket := client_ticket c; slots := l1 ++ l2 |},
           (p, KSlot (memzero_slot s)) :: m)).
Proof.
  repeat split.
  - intros c id m Hr. unfold dal_keystore_free_slot_id.
    destruct (Z.ltb_spec id 0); [reflexivity |].
    destruct (Z.geb_spec id DAL_KEYSTORE_SLOTS_MAX); [reflexivity | lia].
  - intros c id m Hr Hn. unfold dal_keystore_free_slot_id.
    destruct (Z.ltb_spec id 0); [lia |].
    destruct (Z.geb_spec id DAL_KEYSTORE_SLOTS_MAX); [lia |]. simpl.
    now rewrite free_slot_loop_miss.
  - intros c id m Hr Hin Hnd. unfold dal_keystore_free_slot_id.
    destruct (Z.ltb_spec id 0); [lia |].
    destruct (Z.geb_spec id DAL_KEYSTORE_SLOTS_MAX); [lia |]. simpl.
    destruct (free_slot_loop_hit _ id c m Hin)
      as [l1 [p [s [l2 [E [Hs [Hn Hr']]]]]]].
    exists l1, p, s, l2. repeat split; try assumption.
    rewrite Hr'. rewrite E at 1. rewrite list_del_middle; [reflexivity |].
    rewrite E, map_app in Hnd. simpl in Hnd.
    apply NoDup_remove_2 in Hnd. rewrite in_app_iff in Hnd. tauto.
Qed.

(** C9: a call that reports a failure (NULL from an allocation, a non-zero
    code from a free) returns the state it was given: the registry, the
    context it was called on and the allocator are as before.  The two
    lookups read the lists and have no state to return. *)
Theorem failed_call_changes_nothing :
  (forall mem k k',
      dal_keystore_allocate_context mem k = (None, k') -> k' = k)
  /\
  (forall ctx mem ctx',
      dal_keystore_allocate_slot ctx mem = (None, ctx') -> ctx' = ctx)
  /\
  (forall ctx id m res ctx' m',
      dal_keystore_free_slot_id ctx id m = (res, ctx', m') ->
      res <> 0 -> ctx' = ctx /\ m' = m)
  /\
  (forall ctx k res k',
      dal_keystore_free_context_ctx ctx k = (res, k') -> res <> 0 -> k' = k)
  /\
  (forall ticket k res k',
      dal_keystore_free_context_ticket ticket k = (res, k') ->
      res <> 0 -> k' = k).
Proof.
  split; [| split; [| split; [| split]]].
  - intros mem k k'. unfold dal_keystore_allocate_context.
    destruct (list_count (dal_contexts k) 0 <? DAL_KEYSTORE_CLIENTS_MAX);
      [| now inversion 1].
    destruct mem; simpl; now inversion 1.
  - intros [c|] mem ctx' H; [| now inversion H].
    apply allocate_slot_inv in H. cbv zeta in H.
    destruct H as [[p [Hp _]]|[_ [Hc _]]]; [discriminate | now subst].
  - intros [c|] id m res ctx' m' H Hres; simpl in H;
      [| inversion H; auto].
    destruct ((id <? 0) || (id >=? DAL_KEYSTORE_SLOTS_MAX));
      [inversion H; auto |].
    destruct (in_dec Z.eq_dec id (map (fun e => slot_id (snd e)) (slots c)))
      as [Hin|Hout].
    + destruct (free_slot_loop_hit _ id c m Hin)
        as [l1 [p [s [l2 [_ [_ [_ Hr]]]]]]].
      rewrite Hr in H. inversion H. congruence.
    + rewrite (free_slot_loop_miss _ id c m Hout) in H. inversion H. auto.
  - intros [ctx|] k res k' H Hres; simpl in H; [| now inversion H].
    destruct (free_context_ctx_loop_spec ctx (dal_contexts k) k)
      as [[_ Hr]|[l1 [item [l2 [_ [_ Hr]]]]]];
      rewrite Hr in H; inversion H; congruence.
  - intros [ticket|] k res k' H Hres; simpl in H; [| now inversion H].
    destruct (free_context_ticket_loop_spec ticket (dal_contexts k) k)
      as [[_ Hr]|[l1 [pos [item [l2 [_ [_ [_ Hr]]]]]]]];
      rewrite Hr in H; inversion H; congruence.
Qed.

(** ** Lookup and removal by ticket *)

Lemma ticket_differs_at (ticket : list byte) (c : dal_keystore_ctx) (i : nat) :
  (i < KEYSTORE_CLIENT_TICKET_SIZE)%nat ->
  nth_error ticket i <> nth_error (client_ticket c) i ->
  ~ ticket_matches ticket c.
Proof.
  intros Hi Hd Hm. apply Hd.
  unfold ticket_matches in Hm.
  apply (f_equal (fun l => nth_error l i)) in Hm.
  rewrite !nth_error_firstn in Hm.
  apply Nat.ltb_lt in Hi. now rewrite Hi in Hm.
Qed.

(** C7, as the code has it: [dal_keystore_find_context_ticket] returns the
    first context of [dal_contexts], in list order, whose ticket equals the
    given one on each of the KEYSTORE_CLIENT_TICKET_SIZE bytes; it returns
    NULL when no context does, one differing byte being enough; and it
    returns the same NULL for a NULL ticket. *)
Theorem find_context_ticket_first_match :
  (forall k, dal_keystore_find_context_ticket None k = None)
  /\
  (forall ticket k pos,
      dal_keystore_find_context_ticket (Some ticket) k = Some pos ->
      exists l1 item l2,
        dal_contexts k = l1 ++ (pos, item) :: l2 /\
        ticket_matches ticket item /\
        (forall e, In e l1 -> ~ ticket_matches ticket (snd e)))
  /\
  (forall ticket k,
      dal_keystore_find_context_ticket (Some ticket) k = None <->
      (forall e, In e (dal_contexts k) -> ~ ticket_matches ticket (snd e)))
  /\
  (forall ticket c i,
      (i < KEYSTORE_CLIENT_TICKET_SIZE)%nat ->
      nth_error ticket i <> nth_error (client_ticket c) i ->
      ~ ticket_matches ticket c).
Proof.
  split; [reflexivity |]. split; [| split; [| exact ticket_differs_at]].
  - intros ticket k pos H. simpl in H.
    destruct (find_context_ticket_loop_spec ticket (dal_contexts k))
      as [[_ Hr]|[l1 [q [item [l2 [E [Hn [Hm Hr]]]]]]]];
      rewrite Hr in H; [discriminate |].
    inversion H. subst q. exists l1, item, l2. auto.
  - intros ticket k. simpl.
    destruct (find_context_ticket_loop_spec ticket (dal_contexts k))
      as [[Hn Hr]|[l1 [q [item [l2 [E [Hn [Hm Hr]]]]]]]]; rewrite Hr.
    + tauto.
    + split; [discriminate |].
      intros Hall. exfalso. apply (Hall (q, item)); [| exact Hm].
      rewrite E. apply in_app_iff. simpl. tauto.
Qed.

(** C8, as the code has it: a successful
    [dal_keystore_free_context_ticket] unlinks the first context whose
    ticket matches, releases it and all its slots and leaves the other
    contexts in place; a lookup of the same ticket afterwards returns NULL
    exactly when no context behind the freed one carries a matching ticket,
    and returns the first such context otherwise. *)
Theorem free_context_ticket_then_find :
  forall ticket k k',
    NoDup (map fst (dal_contexts k)) ->
    dal_keystore_free_context_ticket (Some ticket) k = (0, k') ->
    exists l1 pos item l2,
      dal_contexts k = l1 ++ (pos, item) :: l2 /\
      (forall e, In e l1 -> ~ ticket_matches ticket (snd e)) /\
      ticket_matches ticket item /\
      dal_contexts k' = l1 ++ l2 /\
      released k' = ctx_images pos item ++ released k /\
      dal_keystore_find_context_ticket (Some ticket) k'
      = find_context_ticket_loop ticket l2 /\
      (dal_keystore_find_context_ticket (Some ticket) k' = None <->
       (forall e, In e l2 -> ~ ticket_matches ticket (snd e))).
Proof.
  intros ticket k k' Hnd H. simpl in H.
  destruct (free_context_ticket_loop_spec ticket (dal_contexts k) k)
    as [[_ Hr]|[l1 [pos [item [l2 [E [Hn [Hm Hr]]]]]]]];
    rewrite Hr in H; inversion H. subst k'. clear H.
  exists l1, pos, item, l2.
  rewrite destroy_context_eq. simpl.
  assert (Hdel : list_del pos (dal_contexts k) = l1 ++ l2).
  { rewrite E. apply list_del_middle.
    rewrite E, map_app in Hnd. simpl in Hnd.
    apply NoDup_remove_2 in Hnd. rewrite in_app_iff in Hnd. tauto. }
  rewrite Hdel.
  assert (Hskip : forall l,
             (forall e, In e l -> ~ ticket_matches ticket (snd e)) ->
             find_context_ticket_loop ticket (l ++ l2)
             = find_context_ticket_loop ticket l2).
  { induction l as [|[q c] l IH]; intros Hl; simpl; [reflexivity |].
    assert (Hq : ~ ticket_matches ticket c) by (apply (Hl (q, c)); simpl; auto).
    apply memcmp_eqb_false in Hq. rewrite Hq.
    apply IH. intros e He. apply Hl. simpl. auto. }
  repeat split; try assumption.
  - now apply Hskip.
  - rewrite (Hskip l1 Hn).
    destruct (find_context_ticket_loop_spec ticket l2)
      as [[Hn2 Hr2]|[l3 [q [it [l4 [E2 [_ [Hm2 Hr2]]]]]]]]; rewrite Hr2.
    + intros _. exact Hn2.
    + discriminate.
  - rewrite (Hskip l1 Hn).
    destruct (find_context_ticket_loop_spec ticket l2)
      as [[Hn2 Hr2]|[l3 [q [it [l4 [E2 [_ [Hm2 Hr2]]]]]]]]; rewrite Hr2.
    + reflexivity.
    + intros Hall. exfalso. apply (Hall (q, it)); [| exact Hm2].
      rewrite E2. apply in_app_iff. simpl. tauto.
Qed.

(** ** Helpers: what a call does to the registry *)

Lemma registry_change_refl (new : option ptr)
    (l : list (ptr * dal_keystore_ctx)) :
  registry_change new l l.
Proof. apply registry_touch; [reflexivity | auto]. Qed.

Lemma update_at_fst {A : Type} (p : ptr) (f : A -> A) (l : list (ptr * A)) :
  map fst (update_at p f l) = map fst l.
Proof.
  unfold update_at. rewrite map_map. apply map_ext.
  intros [q x]. simpl. now destruct (Pos.eqb q p).
Qed.

Lemma update_at_In {A : Type} (p : ptr) (f : A -> A) (l : list (ptr * A))
    (e : ptr * A) :
  In e (update_at p f l) ->
  In e l \/ exists x, In (p, x) l /\ e = (p, f x).
Proof.
  unfold update_at. rewrite in_map_iff.
  intros [[q x] [E H]]. simpl in E.
  destruct (Pos.eqb_spec q p) as [->|N].
  - right. exists x. auto.
  - left. now subst e.
Qed.

Lemma ctx_at_In (p : ptr) (l : list (ptr * dal_keystore_ctx))
    (c : dal_keystore_ctx) :
  ctx_at p l = Some c -> In (p, c) l.
Proof.
  induction l as [|[q x] l IH]; simpl; [discriminate |].
  destruct (Pos.eqb_spec q p) as [->|N].
  - intros H. inversion H. auto.
  - auto.
Qed.

Lemma allocate_context_inv (mem : option ptr) (k : kernel) :
  (exists p,
     mem = Some p /\
     list_count (dal_contexts k) 0 < DAL_KEYSTORE_CLIENTS_MAX /\
     dal_keystore_allocate_context mem k
     = (Some p,
        {| dal_contexts := (p, zeroed_ctx) :: dal_contexts k;
           released := released k |}))
  \/
  ((mem = None \/ DAL_KEYSTORE_CLIENTS_MAX <= list_count (dal_contexts k) 0) /\
   dal_keystore_allocate_context mem k = (None, k)).
Proof.
  unfold dal_keystore_allocate_context.
  destruct (Z.ltb_spec (list_count (dal_contexts k) 0) DAL_KEYSTORE_CLIENTS_MAX).
  - destruct mem as [p|]; simpl.
    + left. exists p. auto.
    + right. auto.
  - right. auto.
Qed.

Lemma allocate_slot_change (c : dal_keystore_ctx) (mem : option ptr) :
  exists c',
    snd (dal_keystore_allocate_slot (Some c) mem) = Some c' /\
    ctx_change mem c c'.
Proof.
  destruct (dal_keystore_allocate_slot (Some c) mem) as [item ctx'] eqn:E.
  apply allocate_slot_inv in E. cbv zeta in E. simpl.
  destruct E as [[p [_ [Hmem [Hlt ->]]]]|[_ [-> _]]].
  - eexists. split; [reflexivity |].
    destruct (lowest_unused_id_spec c (Z.to_nat DAL_KEYSTORE_SLOTS_MAX) 0)
      as [H1 [_ [H3 _]]]; try lia.
    eapply change_alloc; [exact Hmem | | | reflexivity]; [lia | auto].
  - exists c. split; [reflexivity | now apply change_none].
Qed.

Lemma free_slot_loop_change (l : list (ptr * dal_keystore_slot)) (id : Z)
    (c : dal_keystore_ctx) (m : slab) :
  ctx_change None c (snd (fst (free_slot_loop l id c m))).
Proof.
  induction l as [|[p s] l IH]; simpl.
  - now apply change_none.
  - destruct (slot_id s =? id); simpl; [| exact IH].
    now apply (change_free _ _ _ p).
Qed.

Lemma free_slot_id_change (c : dal_keystore_ctx) (id : Z) (m : slab) :
  exists c',
    snd (fst (dal_keystore_free_slot_id (Some c) id m)) = Some c' /\
    ctx_change None c c'.
Proof.
  unfold dal_keystore_free_slot_id.
  destruct ((id <? 0) || (id >=? DAL_KEYSTORE_SLOTS_MAX)); simpl.
  - exists c. split; [reflexivity | now apply change_none].
  - pose proof (free_slot_loop_change (slots c) id c m) as H.
    destruct (free_slot_loop (slots c) id c m) as [[res c'] m']. simpl in *.
    exists c'. auto.
Qed.

Lemma with_ctx_change (new : option ptr) (ctx : option ptr) (k : kernel)
    (f : option dal_keystore_ctx -> slab -> option dal_keystore_ctx * slab) :
  (forall c m, exists c', fst (f (Some c) m) = Some c' /\ ctx_change new c c') ->
  registry_change new (dal_contexts k) (dal_contexts (with_ctx ctx k f)).
Proof.
  intros Hf. unfold with_ctx.
  destruct ctx as [p|]; [| apply registry_change_refl].
  destruct (ctx_at p (dal_contexts k)) as [c|] eqn:E;
    [| apply registry_change_refl].
  destruct (Hf c (released k)) as [c' [Hc' Hch]].
  destruct (f (Some c) (released k)) as [r m]. simpl in Hc'. subst r. simpl.
  apply registry_touch; [apply update_at_fst |].
  intros q x Hin. apply update_at_In in Hin.
  destruct Hin as [Hin|[y [_ Ey]]]; [auto |].
  inversion Ey; subst. right. exists c. split; [| assumption].
  now apply ctx_at_In.
Qed.

Lemma exec_registry_change (c : call) (k : kernel) :
  (forall mem, c <> AllocateContext mem) ->
  registry_change (slot_mem c) (dal_contexts k) (dal_contexts (exec c k)).
Proof.
  intros Hc.
  destruct c as [mem|ctx|ticket| |ticket|ctx mem|ctx id|ctx id|ctx ticket
                |ctx slot key]; cbn [exec].
  - now elim (Hc mem).
  - destruct ctx as [ctx|]; simpl; [| apply registry_change_refl].
    destruct (free_context_ctx_loop_spec ctx (dal_contexts k) k)
      as [[_ Hr]|[l1 [item [l2 [_ [_ Hr]]]]]]; rewrite Hr; simpl.
    + apply registry_change_refl.
    + rewrite destroy_context_eq. simpl. now apply (registry_del _ _ _ ctx).
  - destruct ticket as [ticket|]; simpl; [| apply registry_change_refl].
    destruct (free_context_ticket_loop_spec ticket (dal_contexts k) k)
      as [[_ Hr]|[l1 [pos [item [l2 [_ [_ [_ Hr]]]]]]]]; rewrite Hr; simpl.
    + apply registry_change_refl.
    + rewrite destroy_context_eq. simpl. now apply (registry_del _ _ _ pos).
  - unfold dal_keystore_free_contexts.
    rewrite free_contexts_loop_eq by reflexivity. now apply registry_empty.
  - apply registry_change_refl.
  - apply with_ctx_change. intros x m. simpl. apply allocate_slot_change.
  - apply with_ctx_change. intros x m.
    destruct (free_slot_id_change x id m) as [c' [E Hch]].
    destruct (dal_keystore_free_slot_id (Some x) id m) as [[res r] m'].
    simpl in *. eauto.
  - apply registry_change_refl.
  - simpl. apply registry_touch; [apply update_at_fst |].
    intros q x Hin. apply update_at_In in Hin.
    destruct Hin as [Hin|[y [Hy Ey]]]; [auto |].
    inversion Ey; subst. right. exists y. split; [assumption |].
    now apply (change_ticket _ _ _ ticket).
  - simpl. apply registry_touch; [apply update_at_fst |].
    intros q x Hin. apply update_at_In in Hin.
    destruct Hin as [Hin|[y [Hy Ey]]]; [auto |].
    inversion Ey; subst. right. exists y. split; [assumption |].
    now apply (change_key _ _ _ slot key).
Qed.

(** ** Helpers: invariants of the registry *)

Lemma update_at_key_ids (q : ptr) (key : list byte)
    (l : list (ptr * dal_keystore_slot)) :
  map (fun e => slot_id (snd e)) (update_at q (write_key key) l)
  = map (fun e => slot_id (snd e)) l.
Proof.
  unfold update_at. rewrite map_map. apply map_ext.
  intros [p s]. simpl. now destruct (Pos.eqb p q).
Qed.

Lemma ctx_change_ids_unique (new : option ptr) (c c' : dal_keystore_ctx) :
  ctx_change new c c' -> ids_unique c -> ids_unique c'.
Proof.
  unfold ids_unique, slot_ids.
  intros [->|item id _ Hr Hn ->|p ->|ticket ->|q key ->] H; simpl;
    try assumption.
  - constructor; assumption.
  - now apply list_del_NoDup_map.
  - now rewrite update_at_key_ids.
Qed.

Lemma ctx_change_ids_in_range (new : option ptr) (c c' : dal_keystore_ctx) :
  ctx_change new c c' -> ids_in_range c -> ids_in_range c'.
Proof.
  unfold ids_in_range, slot_ids.
  intros [->|item id _ Hr Hn ->|p ->|ticket ->|q key ->] H j; simpl;
    try apply H.
  - intros [<-|Hj]; [assumption | now apply H].
  - intros Hj. apply H.
    apply in_map_iff in Hj. destruct Hj as [e [<- He]].
    apply in_map_iff. exists e. split; [reflexivity |].
    eapply list_del_In; eassumption.
  - rewrite update_at_key_ids. apply H.
Qed.

Lemma registry_change_every (P : dal_keystore_ctx -> Prop) (new : option ptr)
    (l l' : list (ptr * dal_keystore_ctx)) :
  (forall p c c', In (p, c) l -> ctx_change new c c' -> P c -> P c') ->
  registry_change new l l' -> every_ctx P l -> every_ctx P l'.
Proof.
  intros HP [p ->| ->|Hfst Hin] Hl q c Hc.
  - eapply Hl, list_del_In, Hc.
  - destruct Hc.
  - destruct (Hin _ _ Hc) as [Hold|[c0 [Hc0 Hch]]].
    + eapply Hl, Hold.
    + eapply HP; [exact Hc0 | exact Hch |]. eapply Hl, Hc0.
Qed.

Lemma exec_every (P : dal_keystore_ctx -> Prop) (c : call) (k : kernel) :
  P zeroed_ctx ->
  (forall p x x',
      In (p, x) (dal_contexts k) -> ctx_change (slot_mem c) x x' ->
      P x -> P x') ->
  every_ctx P (dal_contexts k) -> every_ctx P (dal_contexts (exec c k)).
Proof.
  intros H0 HP Hk.
  destruct c as [mem|ctx|ticket| |ticket|ctx mem|ctx id|ctx id|ctx ticket
                |ctx slot key];
    try (eapply registry_change_every;
         [exact HP | apply exec_registry_change; discriminate | exact Hk]).
  cbn [exec].
  destruct (allocate_context_inv mem k) as [[p [_ [_ Hr]]]|[_ Hr]];
    rewrite Hr; simpl; [| exact Hk].
  intros q x [E|Hin]; [inversion E; subst; exact H0 | eapply Hk, Hin].
Qed.

Lemma ctx_ptrs_live (k : kernel) (p : ptr) :
  In p (map fst (dal_contexts k)) -> In p (live_ptrs k).
Proof.
  unfold live_ptrs. rewrite in_map_iff, in_flat_map.
  intros [e [<- He]]. exists e. simpl. auto.
Qed.

Lemma exec_addresses_distinct (c : call) (k : kernel) :
  valid_call c k = true ->
  NoDup (map fst (dal_contexts k)) ->
  NoDup (map fst (dal_contexts (exec c k))).
Proof.
  intros Hv Hk.
  assert (Hch : forall new (l l' : list (ptr * dal_keystore_ctx)),
             registry_change new l l' ->
             NoDup (map fst l) -> NoDup (map fst l')).
  { intros new l l' [p ->| ->|Hfst _] Hl.
    - now apply list_del_NoDup_map.
    - constructor.
    - now rewrite Hfst. }
  destruct c as [mem|ctx|ticket| |ticket|ctx mem|ctx id|ctx id|ctx ticket
                |ctx slot key];
    try (eapply Hch; [apply exec_registry_change; discriminate | exact Hk]).
  cbn [exec].
  destruct (allocate_context_inv mem k) as [[p [-> [_ Hr]]]|[_ Hr]];
    rewrite Hr; simpl; [| exact Hk].
  constructor; [| exact Hk].
  intros Hin. apply ctx_ptrs_live in Hin.
  simpl in Hv. apply negb_true_iff in Hv.
  apply existsb_eqb_In in Hin. congruence.
Qed.

Lemma list_count_length {A : Type} (l : list A) (cnt : Z) :
  0 <= cnt < UINT_MODULUS ->
  list_count l cnt = (cnt + Z.of_nat (length l)) mod UINT_MODULUS.
Proof.
  revert cnt.
  induction l as [|x l IH]; intros cnt Hc.
  - simpl. rewrite Z.add_0_r, Z.mod_small; [reflexivity | assumption].
  - cbn [list_count length]. rewrite IH.
    + rewrite Zplus_mod_idemp_l. f_equal. lia.
    + apply Z.mod_pos_bound. reflexivity.
Qed.

Lemma list_count_small {A : Type} (l : list A) :
  Z.of_nat (length l) < UINT_MODULUS ->
  list_count l 0 = Z.of_nat (length l).
Proof.
  intros H. rewrite list_count_length by (unfold UINT_MODULUS; lia).
  apply Z.mod_small. lia.
Qed.

Lemma exec_within_clients_max (c : call) (k : kernel) :
  0 <= DAL_KEYSTORE_CLIENTS_MAX < UINT_MODULUS ->
  Z.of_nat (length (dal_contexts k)) <= DAL_KEYSTORE_CLIENTS_MAX ->
  Z.of_nat (length (dal_contexts (exec c k))) <= DAL_KEYSTORE_CLIENTS_MAX.
Proof.
  intros Hmax Hk.
  assert (Hch : forall new (l l' : list (ptr * dal_keystore_ctx)),
             registry_change new l l' -> (length l' <= length l)%nat).
  { intros new l l' [p ->| ->|Hfst _].
    - apply list_del_length.
    - simpl. lia.
    - rewrite <- (length_map fst l'), Hfst, length_map. lia. }
  destruct c as [mem|ctx|ticket| |ticket|ctx mem|ctx id|ctx id|ctx ticket
                |ctx slot key];
    try (match goal with
         | |- context [exec ?c k] =>
             pose proof (Hch _ _ _ (exec_registry_change c k
                                     ltac:(discriminate)))
         end; lia).
  cbn [exec].
  destruct (allocate_context_inv mem k) as [[p [_ [Hlt Hr]]]|[_ Hr]];
    rewrite Hr; simpl length; [| exact Hk].
  rewrite list_count_small in Hlt by lia. lia.
Qed.

Lemma filter_all_true {A : Type} (f : A -> bool) (l : list A) :
  (forall x, In x l -> f x = true) -> filter f l = l.
Proof.
  induction l as [|a l IH]; simpl; intros H; [reflexivity |].
  rewrite (H a) by auto. f_equal. apply IH. auto.
Qed.

Lemma filter_survivors {A : Type} (p : ptr) (l : list (ptr * A)) :
  NoDup (map fst l) ->
  filter (fun q => existsb (Pos.eqb q) (map fst (list_del p l))) (map fst l)
  = map fst (list_del p l).
Proof.
  induction l as [|[q x] l IH]; intros Hnd; [reflexivity |].
  inversion Hnd as [|? ? Hn Hd]; subst.
  cbn [list_del map fst filter].
  destruct (Pos.eqb_spec q p) as [->|N].
  - destruct (existsb (Pos.eqb p) (map fst l)) eqn:E.
    + apply existsb_eqb_In in E. contradiction.
    + apply filter_all_true. intros y Hy. now apply existsb_eqb_In.
  - cbn [map fst existsb]. rewrite Pos.eqb_refl. cbn [orb]. f_equal.
    rewrite <- (IH Hd). apply filter_ext_in.
    intros y Hy. rewrite (IH Hd).
    destruct (Pos.eqb_spec y q) as [->|Ny]; [contradiction | reflexivity].
Qed.

Lemma exec_born (c : call) (k : kernel) (born : list ptr) :
  NoDup (map fst (dal_contexts k)) ->
  map fst (dal_contexts k) = born ->
  map fst (dal_contexts (exec c k)) = born_after c k born.
Proof.
  intros Hnd Hb.
  assert (Hsame : forall k' : kernel,
             map fst (dal_contexts k') = map fst (dal_contexts k) ->
             filter (fun p => is_ctx p k') born = born).
  { intros k' E. apply filter_all_true. intros x Hx.
    unfold is_ctx. apply existsb_eqb_In. rewrite E, Hb. exact Hx. }
  assert (Hch : forall new (k' : kernel),
             registry_change new (dal_contexts k) (dal_contexts k') ->
             map fst (dal_contexts k')
             = filter (fun p => is_ctx p k') born).
  { intros new k' [p E| E|Hfst _].
    - unfold is_ctx. rewrite E, <- Hb. symmetry. now apply filter_survivors.
    - unfold is_ctx. rewrite E. simpl.
      clear. induction born; simpl; auto.
    - rewrite (Hsame k' Hfst), Hfst. exact Hb. }
  destruct c as [mem|ctx|ticket| |ticket|ctx mem|ctx id|ctx id|ctx ticket
                |ctx slot key];
    try (unfold born_after;
         eapply Hch, exec_registry_change; discriminate).
  unfold born_after. cbn [exec].
  destruct (allocate_context_inv mem k) as [[p [_ [_ Hr]]]|[_ Hr]];
    rewrite Hr; cbn [fst snd].
  - rewrite filter_all_true; [simpl; now rewrite Hb |].
    intros x Hx. unfold is_ctx. apply existsb_eqb_In. simpl.
    right. now rewrite Hb.
  - now rewrite Hsame.
Qed.

Lemma slot_ptrs_live (k : kernel) (p q : ptr) (c : dal_keystore_ctx) :
  In (p, c) (dal_contexts k) -> In q (map fst (slots c)) -> In q (live_ptrs k).
Proof.
  intros Hc Hq. unfold live_ptrs. apply in_flat_map.
  exists (p, c). simpl. auto.
Qed.

Lemma exec_slots_apart (c : call) (k : kernel) :
  valid_call c k = true ->
  every_ctx slots_apart (dal_contexts k) ->
  every_ctx slots_apart (dal_contexts (exec c k)).
Proof.
  intros Hv. apply exec_every; [apply NoDup_nil |].
  unfold slots_apart.
  intros p x x' Hx [->|item id Hnew _ _ ->|q ->|ticket ->|q key ->] H; simpl;
    try assumption.
  - constructor; [| assumption].
    intros Hin. apply (slot_ptrs_live k p item x Hx) in Hin.
    destruct c; try discriminate Hnew. simpl in Hnew. subst mem.
    simpl in Hv. apply andb_prop in Hv. destruct Hv as [_ Hf].
    apply negb_true_iff in Hf. apply existsb_eqb_In in Hin. congruence.
  - now apply list_del_NoDup_map.
  - now rewrite update_at_fst.
Qed.

(** What holds in every reachable state: the contexts are at distinct
    addresses and in order of birth, and in each of them the slots are at
    distinct addresses and their ids are distinct and in range. *)
Lemma reachable_inv (k : kernel) (born : list ptr) :
  reachable k born ->
  NoDup (map fst (dal_contexts k)) /\
  map fst (dal_contexts k) = born /\
  every_ctx ids_unique (dal_contexts k) /\
  every_ctx ids_in_range (dal_contexts k) /\
  every_ctx slots_apart (dal_contexts k).
Proof.
  induction 1 as [|c k born Hk [Hnd [Hb [Hu [Hr Ha]]]] Hv].
  - simpl. split; [apply NoDup_nil |]. split; [reflexivity |].
    split; [| split]; intros p c [].
  - split; [| split; [| split; [| split]]].
    + now apply exec_addresses_distinct.
    + now apply exec_born.
    + apply exec_every; try assumption.
      * apply NoDup_nil.
      * intros p x x' _. apply ctx_change_ids_unique.
    + apply exec_every; try assumption.
      * intros id [].
      * intros p x x' _. apply ctx_change_ids_in_range.
    + now apply exec_slots_apart.
Qed.

(** ** Capacity *)

(** Distinct integers of [0, n): there are at most [n] of them, and [n] of
    them are all of them. *)
Lemma ids_pigeonhole (ids : list Z) (n : Z) :
  0 <= n ->
  NoDup ids ->
  (forall id, In id ids -> 0 <= id < n) ->
  Z.of_nat (length ids) <= n /\
  (Z.of_nat (length ids) = n -> forall j, 0 <= j < n -> In j ids).
Proof.
  intros Hn Hnd Hr.
  set (l := map Z.to_nat ids).
  assert (Hl : NoDup l).
  { apply NoDup_map_NoDup_ForallPairs; [| assumption].
    intros a b Ha Hb E. apply Hr in Ha. apply Hr in Hb. lia. }
  assert (Hincl : incl l (seq 0 (Z.to_nat n))).
  { intros x Hx. apply in_map_iff in Hx. destruct Hx as [id [<- Hid]].
    apply Hr in Hid. apply in_seq. lia. }
  assert (Hlen : length l = length ids) by apply length_map.
  split.
  - pose proof (NoDup_incl_length Hl Hincl) as H.
    rewrite length_seq in H. lia.
  - intros Hfull j Hj.
    assert (Hback : incl (seq 0 (Z.to_nat n)) l).
    { apply NoDup_length_incl; [assumption | | assumption].
      rewrite length_seq. lia. }
    assert (Hin : In (Z.to_nat j) l) by (apply Hback, in_seq; lia).
    apply in_map_iff in Hin. destruct Hin as [id [E Hid]].
    pose proof (Hr id Hid). replace j with id by lia. exact Hid.
Qed.

Lemma allocate_slot_full (c : dal_keystore_ctx) (mem : option ptr) :
  (forall j, 0 <= j < DAL_KEYSTORE_SLOTS_MAX -> In j (slot_ids c)) ->
  dal_keystore_allocate_slot (Some c) mem = (None, Some c).
Proof.
  intros Hfull.
  destruct (dal_keystore_allocate_slot (Some c) mem) as [item ctx'] eqn:E.
  apply allocate_slot_inv in E. cbv zeta in E.
  destruct E as [[p [_ [_ [Hlt _]]]]|[-> [-> _]]]; [| reflexivity].
  exfalso.
  destruct (lowest_unused_id_spec c (Z.to_nat DAL_KEYSTORE_SLOTS_MAX) 0)
    as [H1 [_ [H3 _]]]; try lia.
  apply (H3 Hlt). apply Hfull. lia.
Qed.

Lemma reachable_within_clients_max (k : kernel) (born : list ptr) :
  0 <= DAL_KEYSTORE_CLIENTS_MAX < UINT_MODULUS ->
  reachable k born ->
  Z.of_nat (length (dal_contexts k)) <= DAL_KEYSTORE_CLIENTS_MAX.
Proof.
  intros Hmax. induction 1 as [|c k born Hk IH Hv].
  - simpl. lia.
  - now apply exec_within_clients_max.
Qed.

(** C2: in every reachable state the registry holds at most
    DAL_KEYSTORE_CLIENTS_MAX contexts and every context at most
    DAL_KEYSTORE_SLOTS_MAX slots; with DAL_KEYSTORE_CLIENTS_MAX contexts in
    the registry [dal_keystore_allocate_context] returns NULL, with
    DAL_KEYSTORE_SLOTS_MAX slots in a context
    [dal_keystore_allocate_slot] returns NULL, and both return the state
    they were given. *)
Theorem capacity_is_enforced :
  0 <= DAL_KEYSTORE_CLIENTS_MAX < UINT_MODULUS ->
  0 <= DAL_KEYSTORE_SLOTS_MAX ->
  (forall k born,
      reachable k born ->
      Z.of_nat (length (dal_contexts k)) <= DAL_KEYSTORE_CLIENTS_MAX /\
      (forall p c, In (p, c) (dal_contexts k) ->
                   Z.of_nat (length (slots c)) <= DAL_KEYSTORE_SLOTS_MAX))
  /\
  (forall k mem,
      Z.of_nat (length (dal_contexts k)) = DAL_KEYSTORE_CLIENTS_MAX ->
      dal_keystore_allocate_context mem k = (None, k))
  /\
  (forall k born p c mem,
      reachable k born ->
      In (p, c) (dal_contexts k) ->
      Z.of_nat (length (slots c)) = DAL_KEYSTORE_SLOTS_MAX ->
      dal_keystore_allocate_slot (Some c) mem = (None, Some c)).
Proof.
  intros Hcmax Hsmax.
  assert (Hslots : forall k born p c,
             reachable k born -> In (p, c) (dal_contexts k) ->
             Z.of_nat (length (slots c)) <= DAL_KEYSTORE_SLOTS_MAX /\
             (Z.of_nat (length (slots c)) = DAL_KEYSTORE_SLOTS_MAX ->
              forall j, 0 <= j < DAL_KEYSTORE_SLOTS_MAX -> In j (slot_ids c))).
  { intros k born p c Hk Hin.
    destruct (reachable_inv k born Hk) as [_ [_ [Hu [Hr _]]]].
    rewrite <- (length_map (fun e => slot_id (snd e)) (slots c)).
    apply ids_pigeonhole; [assumption | exact (Hu p c Hin) | exact (Hr p c Hin)]. }
  split; [| split].
  - intros k born Hk. split.
    + now apply (reachable_within_clients_max k born).
    + intros p c Hin. now apply (Hslots k born p c).
  - intros k mem Hfull.
    destruct (allocate_context_inv mem k) as [[p [_ [Hlt _]]]|[_ Hr]];
      [| exact Hr].
    rewrite list_count_small in Hlt; lia.
  - intros k born p c mem Hk Hin Hfull.
    apply allocate_slot_full. now apply (Hslots k born p c).
Qed.

(** C4: in every reachable state the slots of a context have pairwise
    distinct ids, and every call keeps it so: a call on a registry whose
    contexts have distinct slot ids leaves such a registry, and so do
    [dal_keystore_allocate_slot] and [dal_keystore_free_slot_id] on a
    context. *)
Theorem slot_ids_stay_unique :
  (forall k born p c,
      reachable k born -> In (p, c) (dal_contexts k) -> NoDup (slot_ids c))
  /\
  (forall c k,
      every_ctx ids_unique (dal_contexts k) ->
      every_ctx ids_unique (dal_contexts (exec c k)))
  /\
  (forall c mem item c',
      NoDup (slot_ids c) ->
      dal_keystore_allocate_slot (Some c) mem = (item, Some c') ->
      NoDup (slot_ids c'))
  /\
  (forall c id m res c' m',
      NoDup (slot_ids c) ->
      dal_keystore_free_slot_id (Some c) id m = (res, Some c', m') ->
      NoDup (slot_ids c')).
Proof.
  split; [| split; [| split]].
  - intros k born p c Hk Hin.
    destruct (reachable_inv k born Hk) as [_ [_ [Hu _]]].
    exact (Hu p c Hin).
  - intros c k Hk. apply exec_every; try assumption.
    + apply NoDup_nil.
    + intros p x x' _. apply ctx_change_ids_unique.
  - intros c mem item c' Hc H.
    destruct (allocate_slot_change c mem) as [x [E Hch]].
    rewrite H in E. simpl in E. inversion E. subst x.
    exact (ctx_change_ids_unique _ _ _ Hch Hc).
  - intros c id m res c' m' Hc H.
    destruct (free_slot_id_change c id m) as [x [E Hch]].
    rewrite H in E. simpl in E. inversion E. subst x.
    exact (ctx_change_ids_unique _ _ _ Hch Hc).
Qed.

(** ** Order of the registry *)

Lemma ctx_at_app_skip (p : ptr) (l1 l : list (ptr * dal_keystore_ctx)) :
  ~ In p (map fst l1) -> ctx_at p (l1 ++ l) = ctx_at p l.
Proof.
  induction l1 as [|[q x] l1 IH]; simpl; intros H; [reflexivity |].
  destruct (Pos.eqb_spec q p) as [->|N]; [tauto |].
  apply IH. tauto.
Qed.

Lemma ctx_at_app_in (p : ptr) (l1 l : list (ptr * dal_keystore_ctx)) :
  In p (map fst l1) -> ctx_at p (l1 ++ l) = ctx_at p l1.
Proof.
  induction l1 as [|[q x] l1 IH]; simpl; intros H; [tauto |].
  destruct (Pos.eqb_spec q p) as [->|N]; [reflexivity |].
  apply IH. tauto.
Qed.

Lemma list_del_gone {A : Type} (p : ptr) (l : list (ptr * A)) :
  NoDup (map fst l) -> ~ In p (map fst (list_del p l)).
Proof.
  induction l as [|[q x] l IH]; simpl; intros Hnd; [tauto |].
  inversion Hnd as [|? ? Hn Hd]; subst.
  destruct (Pos.eqb_spec q p) as [->|N]; [assumption |].
  simpl. intros [E|H]; [contradiction | now apply IH].
Qed.

Lemma free_context_ticket_loop_find (ticket : list byte)
    (todo : list (ptr * dal_keystore_ctx)) (k : kernel) :
  match find_context_ticket_loop ticket todo with
  | Some pos =>
      exists item,
        In (pos, item) todo /\
        free_context_ticket_loop ticket todo k = (0, destroy_context pos item k)
  | None => free_context_ticket_loop ticket todo k = (- EINVAL, k)
  end.
Proof.
  induction todo as [|[pos item] todo IH]; simpl; [reflexivity |].
  destruct (memcmp ticket (client_ticket item) KEYSTORE_CLIENT_TICKET_SIZE =? 0).
  - exists item. auto.
  - destruct (find_context_ticket_loop ticket todo) as [q|]; [| exact IH].
    destruct IH as [it [Hin Hr]]. exists it. auto.
Qed.

(** C10: [list_add] links a new context in at the head of [dal_contexts],
    so the registry lists the live contexts youngest first; of several
    contexts with the same ticket, [dal_keystore_find_context_ticket]
    returns the one allocated last, every context born after it carrying
    another ticket, and [dal_keystore_free_context_ticket] frees that same
    context. *)
Theorem youngest_matching_context_wins :
  (forall mem k p k',
      dal_keystore_allocate_context mem k = (Some p, k') ->
      dal_contexts k' = (p, zeroed_ctx) :: dal_contexts k)
  /\
  (forall k born,
      reachable k born ->
      map fst (dal_contexts k) = born /\
      (forall ticket p,
          dal_keystore_find_context_ticket (Some ticket) k = Some p ->
          exists younger older c,
            born = younger ++ p :: older /\
            ctx_at p (dal_contexts k) = Some c /\
            ticket_matches ticket c /\
            (forall q x,
                In q younger -> ctx_at q (dal_contexts k) = Some x ->
                ~ ticket_matches ticket x)) /\
      (forall ticket k',
          dal_keystore_free_context_ticket (Some ticket) k = (0, k') ->
          exists p,
            dal_keystore_find_context_ticket (Some ticket) k = Some p /\
            dal_contexts k' = list_del p (dal_contexts k) /\
            is_ctx p k' = false)).
Proof.
  split.
  - intros mem k p k' H.
    destruct (allocate_context_inv mem k) as [[q [_ [_ Hr]]]|[_ Hr]];
      rewrite Hr in H; inversion H. reflexivity.
  - intros k born Hk.
    destruct (reachable_inv k born Hk) as [Hnd [Hb _]].
    split; [exact Hb |]. split.
    + intros ticket p H. simpl in H.
      destruct (find_context_ticket_loop_spec ticket (dal_contexts k))
        as [[_ Hr]|[l1 [q [c [l2 [E [Hn [Hm Hr]]]]]]]];
        rewrite Hr in H; [discriminate |].
      inversion H. subst q. clear H.
      assert (Hp : ~ In p (map fst l1)).
      { rewrite E, map_app in Hnd. simpl in Hnd.
        apply NoDup_remove_2 in Hnd. rewrite in_app_iff in Hnd. tauto. }
      exists (map fst l1), (map fst l2), c.
      split; [now rewrite <- Hb, E, map_app |].
      split; [rewrite E, ctx_at_app_skip by assumption;
              simpl; now rewrite Pos.eqb_refl |].
      split; [assumption |].
      intros q x Hq Hx.
      rewrite E, ctx_at_app_in in Hx by assumption.
      apply ctx_at_In in Hx. exact (Hn (q, x) Hx).
    + intros ticket k' H. simpl in H.
      pose proof (free_context_ticket_loop_find ticket (dal_contexts k) k) as F.
      simpl.
      destruct (find_context_ticket_loop ticket (dal_contexts k)) as [p|].
      * destruct F as [item [Hin Hr]]. rewrite Hr in H. inversion H.
        exists p. split; [reflexivity |].
        rewrite destroy_context_eq. simpl. split; [reflexivity |].
        unfold is_ctx. simpl.
        destruct (existsb (Pos.eqb p) (map fst (list_del p (dal_contexts k))))
          eqn:Ex; [| reflexivity].
        apply existsb_eqb_In in Ex. now apply list_del_gone in Ex.
      * rewrite F in H. inversion H.
Qed.

(** ** Lookup of a slot, and how it composes with allocation and release *)

Lemma find_slot_loop_skip (l1 l2 : list (ptr * dal_keystore_slot))
    (x : ptr * dal_keystore_slot) (id : Z) :
  slot_id (snd x) <> id ->
  find_slot_loop (l1 ++ x :: l2) id = find_slot_loop (l1 ++ l2) id.
Proof.
  intros Hx.
  induction l1 as [|[q s] l1 IH]; simpl.
  - destruct x as [p sx]. simpl in *.
    destruct (Z.eqb_spec (slot_id sx) id); [contradiction | reflexivity].
  - now rewrite IH.
Qed.

Lemma find_slot_loop_own (l : list (ptr * dal_keystore_slot)) (p : ptr)
    (s : dal_keystore_slot) :
  NoDup (map (fun e => slot_id (snd e)) l) ->
  In (p, s) l ->
  find_slot_loop l (slot_id s) = Some p.
Proof.
  induction l as [|[q t] l IH]; simpl; intros Hnd Hin; [contradiction |].
  inversion Hnd as [|? ? Hn Hd]; subst.
  destruct Hin as [E|Hin].
  - inversion E; subst. now rewrite Z.eqb_refl.
  - destruct (Z.eqb_spec (slot_id t) (slot_id s)) as [E|N].
    + exfalso. apply Hn. rewrite E.
      apply in_map_iff. exists (p, s). auto.
    + now apply IH.
Qed.

(** What a successful [dal_keystore_free_slot_id] leaves, for a slot list
    whose nodes are at distinct addresses. *)
Lemma free_slot_id_hit (c : dal_keystore_ctx) (id : Z) (m : slab)
    (c' : dal_keystore_ctx) (m' : slab) :
  NoDup (map fst (slots c)) ->
  dal_keystore_free_slot_id (Some c) id m = (0, Some c', m') ->
  0 <= id < DAL_KEYSTORE_SLOTS_MAX /\
  exists l1 p s l2,
    slots c = l1 ++ (p, s) :: l2 /\
    slot_id s = id /\
    ~ In id (map (fun e => slot_id (snd e)) l1) /\
    c' = {| client_ticket := client_ticket c; slots := l1 ++ l2 |} /\
    m' = (p, KSlot (memzero_slot s)) :: m.
Proof.
  intros Hnd H. unfold dal_keystore_free_slot_id in H.
  destruct (Z.ltb_spec id 0); [inversion H |].
  destruct (Z.geb_spec id DAL_KEYSTORE_SLOTS_MAX); [inversion H |].
  simpl in H. split; [lia |].
  destruct (in_dec Z.eq_dec id (map (fun e => slot_id (snd e)) (slots c)))
    as [Hin|Hout].
  - destruct (free_slot_loop_hit _ id c m Hin)
      as [l1 [p [s [l2 [E [Hs [Hn Hr]]]]]]].
    rewrite Hr in H. inversion H. clear H.
    exists l1, p, s, l2. repeat split; try assumption.
    rewrite E at 1. rewrite list_del_middle; [reflexivity |].
    rewrite E, map_app in Hnd. simpl in Hnd.
    apply NoDup_remove_2 in Hnd. rewrite in_app_iff in Hnd. tauto.
  - rewrite (free_slot_loop_miss _ id c m Hout) in H. inversion H.
Qed.

(** X1: [dal_keystore_find_slot_id] returns NULL for a NULL context and for
    an id outside [0, DAL_KEYSTORE_SLOTS_MAX); for an id in range it
    returns NULL exactly when no slot of the context has the id, and
    otherwise the address of the first slot of the list that has it. *)
Theorem find_slot_id_result :
  (forall id, dal_keystore_find_slot_id None id = None)
  /\
  (forall c id,
      ~ 0 <= id < DAL_KEYSTORE_SLOTS_MAX ->
      dal_keystore_find_slot_id (Some c) id = None)
  /\
  (forall c id,
      0 <= id < DAL_KEYSTORE_SLOTS_MAX ->
      (dal_keystore_find_slot_id (Some c) id = None <-> ~ In id (slot_ids c)))
  /\
  (forall c id p,
      dal_keystore_find_slot_id (Some c) id = Some p ->
      0 <= id < DAL_KEYSTORE_SLOTS_MAX /\
      exists l1 s l2,
        slots c = l1 ++ (p, s) :: l2 /\ slot_id s = id /\
        ~ In id (map (fun e => slot_id (snd e)) l1)).
Proof.
  split; [reflexivity |]. split; [| split].
  - intros c id Hr. unfold dal_keystore_find_slot_id.
    destruct (Z.ltb_spec id 0); [reflexivity |].
    destruct (Z.geb_spec id DAL_KEYSTORE_SLOTS_MAX); [reflexivity | lia].
  - intros c id Hr. rewrite find_slot_id_in_range by assumption.
    apply find_slot_loop_none.
  - intros c id p H. unfold dal_keystore_find_slot_id in H.
    destruct (Z.ltb_spec id 0); [discriminate |].
    destruct (Z.geb_spec id DAL_KEYSTORE_SLOTS_MAX); [discriminate |].
    simpl in H. split; [lia |]. now apply find_slot_loop_some.
Qed.

(** X2: a slot just allocated is the one a lookup of its id returns, its id
    was not found before, and the lookups of all other ids answer as
    before the allocation. *)
Theorem allocate_slot_then_find :
  forall c mem item c',
    dal_keystore_allocate_slot (Some c) mem = (Some item, Some c') ->
    exists id,
      dal_keystore_find_slot_id (Some c) id = None /\
      dal_keystore_find_slot_id (Some c') id = Some item /\
      (forall j, j <> id ->
         dal_keystore_find_slot_id (Some c') j
         = dal_keystore_find_slot_id (Some c) j).
Proof.
  intros c mem item c' H.
  destruct (allocate_slot_picks_lowest _ _ _ _ H) as [id [E [Hr [Hfree _]]]].
  inversion E. subst c'. clear E.
  exists id. split; [| split].
  - rewrite find_slot_id_in_range by assumption.
    now apply find_slot_loop_none.
  - rewrite find_slot_id_in_range by assumption.
    simpl. now rewrite Z.eqb_refl.
  - intros j Hj. unfold dal_keystore_find_slot_id.
    destruct ((j <? 0) || (j >=? DAL_KEYSTORE_SLOTS_MAX)); [reflexivity |].
    simpl. destruct (Z.eqb_spec id j); [congruence | reflexivity].
Qed.

(** X3: in a context whose slots have distinct ids and sit at distinct
    addresses, a lookup of an id just freed returns NULL, the lookups of
    all other ids answer as before, and freeing the same id again fails
    with [-EINVAL] and changes nothing. *)
Theorem free_slot_then_find :
  forall c id m c' m',
    NoDup (map fst (slots c)) ->
    NoDup (slot_ids c) ->
    dal_keystore_free_slot_id (Some c) id m = (0, Some c', m') ->
    dal_keystore_find_slot_id (Some c') id = None /\
    (forall j, j <> id ->
       dal_keystore_find_slot_id (Some c') j
       = dal_keystore_find_slot_id (Some c) j) /\
    dal_keystore_free_slot_id (Some c') id m' = (- EINVAL, Some c', m').
Proof.
  intros c id m c' m' Haddr Hids H.
  destruct (free_slot_id_hit _ _ _ _ _ Haddr H)
    as [Hr [l1 [p [s [l2 [E [Hs [Hn [-> ->]]]]]]]]].
  assert (Hgone : ~ In id (map (fun e => slot_id (snd e)) (l1 ++ l2))).
  { unfold slot_ids in Hids. rewrite E, map_app in Hids. simpl in Hids.
    apply NoDup_remove_2 in Hids. rewrite Hs in Hids.
    now rewrite map_app. }
  split; [| split].
  - rewrite find_slot_id_in_range by assumption.
    now apply find_slot_loop_none.
  - intros j Hj. unfold dal_keystore_find_slot_id.
    destruct ((j <? 0) || (j >=? DAL_KEYSTORE_SLOTS_MAX)); [reflexivity |].
    simpl. rewrite E. symmetry. apply find_slot_loop_skip. simpl. congruence.
  - unfold dal_keystore_free_slot_id.
    destruct (Z.ltb_spec id 0); [lia |].
    destruct (Z.geb_spec id DAL_KEYSTORE_SLOTS_MAX); [lia |]. simpl.
    now rewrite free_slot_loop_miss.
Qed.

(** X4: after a slot id is freed in a context whose slots have distinct
    ids and sit at distinct addresses, the next allocation that gets
    memory succeeds, and its slot gets the smaller of the freed id and the
    id an allocation would have got before the release; so an id is
    reused as soon as it is the lowest free one. *)
Theorem free_slot_then_allocate :
  forall c id m c' m' item,
    NoDup (map fst (slots c)) ->
    NoDup (slot_ids c) ->
    dal_keystore_free_slot_id (Some c) id m = (0, Some c', m') ->
    dal_keystore_allocate_slot (Some c') (Some item)
    = (Some item,
       Some (with_new_slot c' item
               (Z.min id (lowest_unused_id (Some c)
                            (Z.to_nat DAL_KEYSTORE_SLOTS_MAX) 0)))).
Proof.
  intros c id m c' m' item Haddr Hids H.
  destruct (free_slot_id_hit _ _ _ _ _ Haddr H)
    as [Hr [l1 [p [s [l2 [E [Hs [Hn [-> ->]]]]]]]]].
  destruct (lowest_unused_id_spec c (Z.to_nat DAL_KEYSTORE_SLOTS_MAX) 0)
    as [H1 [H2 [H3 H4]]]; try lia.
  set (r := lowest_unused_id (Some c) (Z.to_nat DAL_KEYSTORE_SLOTS_MAX) 0) in *.
  assert (Hused : In id (slot_ids c)).
  { unfold slot_ids. rewrite E, map_app, in_app_iff. simpl. tauto. }
  assert (Hkeep : forall j, j <> id -> In j (slot_ids c) ->
             In j (map (fun e => slot_id (snd e)) (l1 ++ l2))).
  { intros j Hj. unfold slot_ids. rewrite E, !map_app, !in_app_iff. simpl.
    intuition congruence. }
  assert (Hsub : forall j, In j (map (fun e => slot_id (snd e)) (l1 ++ l2)) ->
             In j (slot_ids c)).
  { intros j. unfold slot_ids. rewrite E, !map_app, !in_app_iff. simpl.
    tauto. }
  assert (Hgone : ~ In id (map (fun e => slot_id (snd e)) (l1 ++ l2))).
  { unfold slot_ids in Hids. rewrite E, map_app in Hids. simpl in Hids.
    apply NoDup_remove_2 in Hids. rewrite Hs in Hids.
    now rewrite map_app. }
  assert (Hne : r <> id).
  { intros Er. destruct (Z.lt_ge_cases r DAL_KEYSTORE_SLOTS_MAX) as [L|G].
    - apply (H3 L). now rewrite Er.
    - lia. }
  apply allocate_slot_at; unfold slot_ids; simpl.
  - lia.
  - destruct (Z.min_spec id r) as [[L ->]|[L ->]]; [exact Hgone |].
    intros Hin. apply (H3 ltac:(lia)). now apply Hsub.
  - intros j Hj. apply Hkeep; [lia |]. apply H2. lia.
Qed.

(** X5: with memory available, [dal_keystore_allocate_slot] succeeds
    exactly when some id of [0, DAL_KEYSTORE_SLOTS_MAX) is unused in the
    context; in particular it succeeds in every context that holds fewer
    than DAL_KEYSTORE_SLOTS_MAX slots, whatever their ids. *)
Theorem allocate_slot_succeeds_iff :
  (forall c item,
      fst (dal_keystore_allocate_slot (Some c) (Some item)) = Some item <->
      exists id, 0 <= id < DAL_KEYSTORE_SLOTS_MAX /\ ~ In id (slot_ids c))
  /\
  (forall c item,
      Z.of_nat (length (slots c)) < DAL_KEYSTORE_SLOTS_MAX ->
      fst (dal_keystore_allocate_slot (Some c) (Some item)) = Some item).
Proof.
  assert (Hiff : forall c item,
             fst (dal_keystore_allocate_slot (Some c) (Some item)) = Some item <->
             exists id, 0 <= id < DAL_KEYSTORE_SLOTS_MAX /\ ~ In id (slot_ids c)).
  { intros c item. split.
    - intros H.
      destruct (dal_keystore_allocate_slot (Some c) (Some item))
        as [r ctx'] eqn:E. simpl in H. subst r.
      destruct (allocate_slot_picks_lowest _ _ _ _ E) as [id [_ [Hr [Hf _]]]].
      exists id. auto.
    - intros [id [Hr Hf]].
      destruct (dal_keystore_allocate_slot (Some c) (Some item))
        as [r ctx'] eqn:E.
      apply allocate_slot_inv in E. cbv zeta in E. simpl.
      destruct E as [[p [-> [Hm _]]]|[_ [_ [Hm|Hge]]]];
        [congruence | discriminate |].
      exfalso.
      destruct (lowest_unused_id_spec c (Z.to_nat DAL_KEYSTORE_SLOTS_MAX) 0)
        as [_ [H2 _]]; try lia.
      apply Hf. apply H2. lia. }
  split; [exact Hiff |].
  intros c item Hlen. apply Hiff.
  destruct (lowest_unused_id_spec c (Z.to_nat DAL_KEYSTORE_SLOTS_MAX) 0)
    as [H1 [H2 [H3 H4]]]; try lia.
  set (r := lowest_unused_id (Some c) (Z.to_nat DAL_KEYSTORE_SLOTS_MAX) 0) in *.
  destruct (Z.lt_ge_cases r DAL_KEYSTORE_SLOTS_MAX) as [L|G].
  - exists r. split; [lia | auto].
  - exfalso.
    assert (Hincl : incl (seq 0 (Z.to_nat DAL_KEYSTORE_SLOTS_MAX))
                         (map Z.to_nat (slot_ids c))).
    { intros n Hn. apply in_seq in Hn.
      apply in_map_iff. exists (Z.of_nat n). split; [lia |].
      apply H2. lia. }
    apply NoDup_incl_length in Hincl; [| apply seq_NoDup].
    rewrite length_seq, length_map in Hincl.
    unfold slot_ids in Hincl. rewrite length_map in Hincl. lia.
Qed.

(** X6: in every reachable state every live slot has its id in
    [0, DAL_KEYSTORE_SLOTS_MAX) and is the slot that a lookup of its id in
    its context returns. *)
Theorem live_slot_is_found_by_its_id :
  forall k born p c q s,
    reachable k born ->
    In (p, c) (dal_contexts k) ->
    In (q, s) (slots c) ->
    0 <= slot_id s < DAL_KEYSTORE_SLOTS_MAX /\
    dal_keystore_find_slot_id (Some c) (slot_id s) = Some q.
Proof.
  intros k born p c q s Hk Hc Hs.
  destruct (reachable_inv k born Hk) as [_ [_ [Hu [Hr _]]]].
  assert (Hin : 0 <= slot_id s < DAL_KEYSTORE_SLOTS_MAX).
  { apply (Hr p c Hc). unfold slot_ids.
    apply in_map_iff. exists (q, s). auto. }
  split; [exact Hin |].
  rewrite find_slot_id_in_range by assumption.
  apply find_slot_loop_own; [exact (Hu p c Hc) | exact Hs].
Qed.

(** ** Allocation and release of contexts *)

Lemma free_context_ctx_loop_absent (ctx : ptr)
    (todo : list (ptr * dal_keystore_ctx)) (k : kernel) :
  ~ In ctx (map fst todo) ->
  free_context_ctx_loop ctx todo k = (- EINVAL, k).
Proof.
  intros Hn.
  destruct (free_context_ctx_loop_spec ctx todo k)
    as [[_ Hr]|[l1 [item [l2 [E _]]]]]; [exact Hr |].
  exfalso. apply Hn. rewrite E, map_app, in_app_iff. simpl. tauto.
Qed.

Lemma free_context_ctx_hit (p : ptr) (k k' : kernel) :
  NoDup (map fst (dal_contexts k)) ->
  dal_keystore_free_context_ctx (Some p) k = (0, k') ->
  exists l1 item l2,
    dal_contexts k = l1 ++ (p, item) :: l2 /\
    k' = {| dal_contexts := l1 ++ l2;
            released := ctx_images p item ++ released k |}.
Proof.
  intros Hnd H. simpl in H.
  destruct (free_context_ctx_loop_spec p (dal_contexts k) k)
    as [[_ Hr]|[l1 [item [l2 [E [Hn Hr]]]]]];
    rewrite Hr in H; inversion H. clear H.
  exists l1, item, l2. split; [exact E |].
  rewrite destroy_context_eq. rewrite E at 1.
  now rewrite list_del_middle.
Qed.

Lemma free_context_ticket_hit (ticket : list byte) (k k' : kernel) :
  NoDup (map fst (dal_contexts k)) ->
  dal_keystore_free_context_ticket (Some ticket) k = (0, k') ->
  exists l1 pos item l2,
    dal_contexts k = l1 ++ (pos, item) :: l2 /\
    k' = {| dal_contexts := l1 ++ l2;
            released := ctx_images pos item ++ released k |}.
Proof.
  intros Hnd H. simpl in H.
  destruct (free_context_ticket_loop_spec ticket (dal_contexts k) k)
    as [[_ Hr]|[l1 [pos [item [l2 [E [_ [_ Hr]]]]]]]];
    rewrite Hr in H; inversion H. clear H.
  exists l1, pos, item, l2. split; [exact E |].
  rewrite destroy_context_eq. rewrite E at 1.
  rewrite list_del_middle; [reflexivity |].
  rewrite E, map_app in Hnd. simpl in Hnd.
  apply NoDup_remove_2 in Hnd. rewrite in_app_iff in Hnd. tauto.
Qed.

Lemma allocate_context_below (p : ptr) (k : kernel) :
  Z.of_nat (length (dal_contexts k)) < UINT_MODULUS ->
  Z.of_nat (length (dal_contexts k)) < DAL_KEYSTORE_CLIENTS_MAX ->
  dal_keystore_allocate_context (Some p) k
  = (Some p,
     {| dal_contexts := (p, zeroed_ctx) :: dal_contexts k;
        released := released k |}).
Proof.
  intros Hsmall Hlt.
  destruct (allocate_context_inv (Some p) k)
    as [[q [Hq [_ Hr]]]|[[Hm|Hge] _]].
  - inversion Hq. subst q. exact Hr.
  - discriminate.
  - rewrite list_count_small in Hge by assumption. lia.
Qed.

(** X7: [dal_keystore_allocate_context] returns NULL and the state it was
    given when the allocator has no memory or the registry holds
    DAL_KEYSTORE_CLIENTS_MAX contexts or more; otherwise it returns the new
    address, links a context with a zero ticket and no slot in at the head
    and leaves the other contexts and the allocator as they were (the
    registry being short enough for the [unsigned int] counter). *)
Theorem allocate_context_result :
  (forall k, dal_keystore_allocate_context None k = (None, k))
  /\
  (forall p k,
      Z.of_nat (length (dal_contexts k)) < UINT_MODULUS ->
      DAL_KEYSTORE_CLIENTS_MAX <= Z.of_nat (length (dal_contexts k)) ->
      dal_keystore_allocate_context (Some p) k = (None, k))
  /\
  (forall p k,
      Z.of_nat (length (dal_contexts k)) < UINT_MODULUS ->
      Z.of_nat (length (dal_contexts k)) < DAL_KEYSTORE_CLIENTS_MAX ->
      dal_keystore_allocate_context (Some p) k
      = (Some p,
         {| dal_contexts := (p, zeroed_ctx) :: dal_contexts k;
            released := released k |})).
Proof.
  split; [| split].
  - intros k.
    destruct (allocate_context_inv None k) as [[q [Hq _]]|[_ Hr]];
      [discriminate | exact Hr].
  - intros p k Hsmall Hge.
    destruct (allocate_context_inv (Some p) k) as [[q [_ [Hlt _]]]|[_ Hr]];
      [| exact Hr].
    rewrite list_count_small in Hlt by assumption. lia.
  - exact allocate_context_below.
Qed.

(** X8: [dal_keystore_free_context_ctx] returns [-EFAULT] for NULL and
    [-EINVAL] for an address that is not in the registry, changing
    nothing; for the address of a registered context it returns 0,
    unlinks that context, leaves the others in their order, and releases
    the context's block and the blocks of its slots and no other. *)
Theorem free_context_ctx_result :
  (forall k, dal_keystore_free_context_ctx None k = (- EFAULT, k))
  /\
  (forall p k,
      ~ In p (map fst (dal_contexts k)) ->
      dal_keystore_free_context_ctx (Some p) k = (- EINVAL, k))
  /\
  (forall p k,
      NoDup (map fst (dal_contexts k)) ->
      In p (map fst (dal_contexts k)) ->
      exists l1 item l2,
        dal_contexts k = l1 ++ (p, item) :: l2 /\
        dal_keystore_free_context_ctx (Some p) k
        = (0,
           {| dal_contexts := l1 ++ l2;
              released := ctx_images p item ++ released k |}) /\
        map fst (ctx_images p item) = p :: rev (map fst (slots item))).
Proof.
  split; [reflexivity |]. split.
  - intros p k Hn. simpl. now apply free_context_ctx_loop_absent.
  - intros p k Hnd Hin.
    destruct (dal_keystore_free_context_ctx (Some p) k) as [res k'] eqn:E.
    assert (Hres : res = 0).
    { simpl in E.
      destruct (free_context_ctx_loop_spec p (dal_contexts k) k)
        as [[Hn _]|[l1 [item [l2 [_ [_ Hr]]]]]]; [contradiction |].
      rewrite Hr in E. now inversion E. }
    subst res.
    destruct (free_context_ctx_hit p k k' Hnd E) as [l1 [item [l2 [El ->]]]].
    exists l1, item, l2. repeat split; try assumption.
    unfold ctx_images, slot_images. simpl. f_equal.
    rewrite <- map_rev, map_map. simpl. now rewrite map_rev.
Qed.

Lemma ctx_at_unlinked (p q : ptr) (item : dal_keystore_ctx)
    (l1 l2 : list (ptr * dal_keystore_ctx)) :
  q <> p -> ctx_at q (l1 ++ l2) = ctx_at q (l1 ++ (p, item) :: l2).
Proof.
  intros Hq.
  induction l1 as [|[r x] l1 IH]; simpl.
  - destruct (Pos.eqb_spec p q); [congruence | reflexivity].
  - now rewrite IH.
Qed.

(** X9: once [dal_keystore_free_context_ctx] has freed a context, its
    address is no longer in the registry, every other context is still
    there with the same contents, and freeing the same address again
    fails with [-EINVAL] and changes nothing. *)
Theorem free_context_ctx_twice :
  forall p k k',
    NoDup (map fst (dal_contexts k)) ->
    dal_keystore_free_context_ctx (Some p) k = (0, k') ->
    is_ctx p k' = false /\
    (forall q, q <> p ->
       ctx_at q (dal_contexts k') = ctx_at q (dal_contexts k)) /\
    dal_keystore_free_context_ctx (Some p) k' = (- EINVAL, k').
Proof.
  intros p k k' Hnd H.
  destruct (free_context_ctx_hit p k k' Hnd H) as [l1 [item [l2 [E ->]]]].
  assert (Hgone : ~ In p (map fst (l1 ++ l2))).
  { rewrite E, map_app in Hnd. simpl in Hnd.
    apply NoDup_remove_2 in Hnd. now rewrite map_app. }
  split; [| split].
  - unfold is_ctx. simpl.
    destruct (existsb (Pos.eqb p) (map fst (l1 ++ l2))) eqn:Ex;
      [| reflexivity].
    apply existsb_eqb_In in Ex. contradiction.
  - intros q Hq. simpl. rewrite E. now apply ctx_at_unlinked.
  - simpl. now apply free_context_ctx_loop_absent.
Qed.

(** X10: [dal_keystore_free_contexts] leaves an empty registry, does
    nothing at all on an empty registry, and so a second call in a row
    changes nothing. *)
Theorem free_contexts_idempotent :
  (forall k, dal_contexts (dal_keystore_free_contexts k) = [])
  /\
  (forall k, dal_contexts k = [] -> dal_keystore_free_contexts k = k)
  /\
  (forall k,
      dal_keystore_free_contexts (dal_keystore_free_contexts k)
      = dal_keystore_free_contexts k).
Proof.
  assert (Hempty : forall k, dal_contexts k = [] ->
             dal_keystore_free_contexts k = k).
  { intros [l m] E. simpl in E. subst l. reflexivity. }
  assert (Hall : forall k, dal_contexts (dal_keystore_free_contexts k) = []).
  { intros k. unfold dal_keystore_free_contexts.
    now rewrite free_contexts_loop_eq. }
  split; [exact Hall |]. split; [exact Hempty |].
  intros k. apply Hempty, Hall.
Qed.

Lemma slot_images_fst (l : list (ptr * dal_keystore_slot)) :
  map fst (slot_images l) = rev (map fst l).
Proof.
  unfold slot_images. rewrite <- map_rev, map_map. simpl.
  now rewrite map_rev.
Qed.

Lemma drained_permutation (l : list (ptr * dal_keystore_ctx)) (m : slab) :
  exists new,
    drained l m = new ++ m /\
    Permutation (map fst new)
      (flat_map (fun e => fst e :: map fst (slots (snd e))) l).
Proof.
  revert m.
  induction l as [|[pos item] l IH]; intros m; simpl.
  - exists []. split; [reflexivity | constructor].
  - destruct (IH (ctx_images pos item ++ m)) as [new [E Hp]].
    exists (new ++ ctx_images pos item).
    split; [now rewrite <- app_assoc |].
    rewrite map_app.
    apply Permutation_trans
      with (l' := map fst (ctx_images pos item) ++ map fst new);
      [apply Permutation_app_comm |].
    simpl. constructor. apply Permutation_app; [| exact Hp].
    rewrite slot_images_fst. apply Permutation_sym, Permutation_rev.
Qed.

(** X11: [dal_keystore_free_contexts] hands back to the allocator the
    block of every live context and of every live slot, each exactly once,
    and nothing else; what was released before stays in the log. *)
Theorem free_contexts_releases_each_once :
  forall k,
    exists new,
      released (dal_keystore_free_contexts k) = new ++ released k /\
      Permutation (map fst new) (live_ptrs k) /\
      (forall b, In b new -> zero_filled (snd b) = true).
Proof.
  intros k. unfold dal_keystore_free_contexts.
  rewrite free_contexts_loop_eq by reflexivity. simpl.
  destruct (drained_permutation (dal_contexts k) (released k))
    as [new [E Hp]].
  exists new. split; [exact E |]. split; [exact Hp |].
  destruct (drained_spec (dal_contexts k) (released k)) as [new' [E' [Hz _]]].
  rewrite E in E'. apply app_inv_tail in E'. subst new'. exact Hz.
Qed.

(** X12: in every reachable state, once a context has been freed by its
    address or by its ticket, the registry is below its limit again: the
    next [dal_keystore_allocate_context] that gets memory succeeds. *)
Theorem freed_context_makes_room :
  0 <= DAL_KEYSTORE_CLIENTS_MAX < UINT_MODULUS ->
  forall k born,
    reachable k born ->
    (forall ctx k' p,
        dal_keystore_free_context_ctx ctx k = (0, k') ->
        fst (dal_keystore_allocate_context (Some p) k') = Some p)
    /\
    (forall ticket k' p,
        dal_keystore_free_context_ticket ticket k = (0, k') ->
        fst (dal_keystore_allocate_context (Some p) k') = Some p).
Proof.
  intros Hmax k born Hk.
  pose proof (reachable_within_clients_max k born Hmax Hk) as Hlen.
  destruct (reachable_inv k born Hk) as [Hnd _].
  assert (Hroom : forall l1 x l2 m p,
             dal_contexts k = l1 ++ x :: l2 ->
             fst (dal_keystore_allocate_context (Some p)
                    {| dal_contexts := l1 ++ l2; released := m |}) = Some p).
  { intros l1 x l2 m p E.
    rewrite E, length_app in Hlen. simpl in Hlen.
    rewrite allocate_context_below; [reflexivity | |];
      simpl; rewrite length_app; lia. }
  split.
  - intros [q|] k' p H; [| inversion H].
    destruct (free_context_ctx_hit q k k' Hnd H) as [l1 [item [l2 [E ->]]]].
    eapply Hroom, E.
  - intros [t|] k' p H; [| inversion H].
    destruct (free_context_ticket_hit t k k' Hnd H)
      as [l1 [pos [item [l2 [E ->]]]]].
    eapply Hroom, E.
Qed.

(** X13: [dal_keystore_free_context_ticket] returns [-EFAULT] for a NULL
    ticket; for any other ticket it returns 0 exactly when
    [dal_keystore_find_context_ticket] finds a context for that ticket and
    [-EINVAL], changing nothing, exactly when the lookup returns NULL. *)
Theorem free_context_ticket_agrees_with_find :
  (forall k, dal_keystore_free_context_ticket None k = (- EFAULT, k))
  /\
  (forall ticket k,
      fst (dal_keystore_free_context_ticket (Some ticket) k) = 0 <->
      dal_keystore_find_context_ticket (Some ticket) k <> None)
  /\
  (forall ticket k,
      dal_keystore_free_context_ticket (Some ticket) k = (- EINVAL, k) <->
      dal_keystore_find_context_ticket (Some ticket) k = None).
Proof.
  split; [reflexivity |].
  split; intros ticket k; simpl;
    pose proof (free_context_ticket_loop_find ticket (dal_contexts k) k) as F;
    destruct (find_context_ticket_loop ticket (dal_contexts k)) as [p|].
  - destruct F as [item [_ Hr]]. rewrite Hr. simpl.
    split; [discriminate | reflexivity].
  - rewrite F. simpl. split; [discriminate | congruence].
  - destruct F as [item [_ Hr]]. rewrite Hr.
    split; [inversion 1 | discriminate].
  - rewrite F. split; reflexivity.
Qed.

(** X14: only the first KEYSTORE_CLIENT_TICKET_SIZE bytes of the caller's
    ticket buffer count: two buffers that agree on them get the same
    answer from the lookup and the same result from the release. *)
Theorem ticket_bytes_beyond_size_ignored :
  forall t t' k,
    firstn KEYSTORE_CLIENT_TICKET_SIZE t = firstn KEYSTORE_CLIENT_TICKET_SIZE t' ->
    dal_keystore_find_context_ticket (Some t) k
    = dal_keystore_find_context_ticket (Some t') k /\
    dal_keystore_free_context_ticket (Some t) k
    = dal_keystore_free_context_ticket (Some t') k.
Proof.
  intros t t' k Ht.
  assert (Hcmp : forall x,
             (memcmp t x KEYSTORE_CLIENT_TICKET_SIZE =? 0)
             = (memcmp t' x KEYSTORE_CLIENT_TICKET_SIZE =? 0)).
  { intros x.
    destruct (memcmp t' x KEYSTORE_CLIENT_TICKET_SIZE =? 0) eqn:E.
    - apply memcmp_eqb_true. apply memcmp_eqb_true in E. congruence.
    - apply memcmp_eqb_false. apply memcmp_eqb_false in E. congruence. }
  split; simpl.
  - induction (dal_contexts k) as [|[pos item] l IH]; simpl; [reflexivity |].
    rewrite Hcmp, IH. reflexivity.
  - generalize k at 2 4.
    induction (dal_contexts k) as [|[pos item] l IH]; intros k0; simpl;
      [reflexivity |].
    rewrite Hcmp, IH. reflexivity.
Qed.

(** ** Round trips *)

(** X16: freeing by its address the context [dal_keystore_allocate_context]
    just returned succeeds and gives the registry back as it was before
    the allocation; the only trace is the zeroed block in the release
    log. *)
Theorem allocate_then_free_context :
  forall mem k p k1,
    dal_keystore_allocate_context mem k = (Some p, k1) ->
    dal_keystore_free_context_ctx (Some p) k1
    = (0,
       {| dal_contexts := dal_contexts k;
          released := (p, KCtx (memzero_ctx zeroed_ctx)) :: released k |}).
Proof.
  intros mem k p k1 H.
  destruct (allocate_context_inv mem k) as [[q [_ [_ Hr]]]|[_ Hr]];
    rewrite Hr in H; inversion H. subst q. clear H.
  simpl. rewrite Pos.eqb_refl. rewrite destroy_context_eq.
  cbn [dal_contexts released]. now rewrite list_del_head.
Qed.

(** X17: freeing the id of the slot [dal_keystore_allocate_slot] just
    returned succeeds and gives the context back as it was before the
    allocation; the only trace is the zeroed block in the release log. *)
Theorem allocate_then_free_slot :
  forall c mem item c' m,
    dal_keystore_allocate_slot (Some c) mem = (Some item, Some c') ->
    exists id,
      slot_ids c' = id :: slot_ids c /\
      dal_keystore_free_slot_id (Some c') id m
      = (0, Some c, (item, KSlot (memzero_slot zeroed_slot)) :: m).
Proof.
  intros c mem item c' m H.
  destruct (allocate_slot_picks_lowest _ _ _ _ H) as [id [E [Hr _]]].
  inversion E. subst c'. clear E.
  exists id. split; [reflexivity |].
  unfold dal_keystore_free_slot_id.
  destruct (Z.ltb_spec id 0); [lia |].
  destruct (Z.geb_spec id DAL_KEYSTORE_SLOTS_MAX); [lia |].
  simpl. rewrite Z.eqb_refl, Pos.eqb_refl.
  destruct c. reflexivity.
Qed.

(** X18: in a registry whose contexts are at distinct addresses, freeing
    by ticket does what freeing by address does on the context the lookup
    of that ticket returns. *)
Theorem free_by_ticket_is_free_of_found :
  forall ticket k p,
    NoDup (map fst (dal_contexts k)) ->
    dal_keystore_find_context_ticket (Some ticket) k = Some p ->
    dal_keystore_free_context_ticket (Some ticket) k
    = dal_keystore_free_context_ctx (Some p) k.
Proof.
  intros ticket k p Hnd H. simpl in *.
  pose proof (free_context_ticket_loop_find ticket (dal_contexts k) k) as F.
  rewrite H in F. destruct F as [item [Hin Hr]]. rewrite Hr.
  destruct (free_context_ctx_loop_spec p (dal_contexts k) k)
    as [[Hn _]|[l1 [item' [l2 [E [_ Hr']]]]]].
  - exfalso. apply Hn. apply in_map_iff. exists (p, item). auto.
  - rewrite Hr'. f_equal. f_equal.
    apply (NoDup_fst_In_eq _ p _ _ Hnd Hin).
    rewrite E. apply in_app_iff. simpl. auto.
Qed.

(** ** Order of the slots of a context *)

Lemma slot_history_reachable (k : kernel) (born : list ptr)
    (h : ptr -> list ptr) :
  slot_history k born h -> reachable k born.
Proof.
  induction 1 as [|c k born h Hk IH Hv].
  - apply reachable_boot.
  - now apply reachable_call.
Qed.

Lemma reachable_slot_history (k : kernel) (born : list ptr) :
  reachable k born -> exists h, slot_history k born h.
Proof.
  induction 1 as [|c k born Hk [h IH] Hv].
  - eexists. apply slot_history_boot.
  - eexists. apply slot_history_call; eassumption.
Qed.

Lemma ctx_at_of_In (p : ptr) (c : dal_keystore_ctx)
    (l : list (ptr * dal_keystore_ctx)) :
  NoDup (map fst l) -> In (p, c) l -> ctx_at p l = Some c.
Proof.
  induction l as [|[q x] l IH]; simpl; intros Hnd Hin; [contradiction |].
  inversion Hnd as [|? ? Hn Hd]; subst.
  destruct Hin as [E|Hin].
  - inversion E; subst. now rewrite Pos.eqb_refl.
  - destruct (Pos.eqb_spec q p) as [->|N]; [| now apply IH].
    exfalso. apply Hn. apply in_map_iff. exists (p, c). auto.
Qed.

Lemma update_at_In_sharp {A : Type} (q : ptr) (f : A -> A)
    (l : list (ptr * A)) (p : ptr) (y : A) :
  In (p, y) (update_at q f l) ->
  (p <> q /\ In (p, y) l) \/ (p = q /\ exists x, In (q, x) l /\ y = f x).
Proof.
  unfold update_at. rewrite in_map_iff.
  intros [[r x] [E H]]. simpl in E.
  destruct (Pos.eqb_spec r q) as [->|N]; inversion E; subst.
  - right. split; [reflexivity |]. exists x. auto.
  - left. auto.
Qed.

Lemma alive_same (k' : kernel) (p : ptr) (x : dal_keystore_ctx)
    (l0 : list ptr) :
  ctx_at p (dal_contexts k') = Some x ->
  incl l0 (map fst (slots x)) ->
  filter (fun a => slot_at p a k') l0 = l0.
Proof.
  intros Hat Hincl. apply filter_all_true.
  intros a Ha. unfold slot_at. rewrite Hat.
  apply existsb_eqb_In. now apply Hincl.
Qed.

Lemma alive_none (k' : kernel) (p : ptr) (x : dal_keystore_ctx)
    (l0 : list ptr) :
  ctx_at p (dal_contexts k') = Some x ->
  slots x = [] ->
  filter (fun a => slot_at p a k') l0 = [].
Proof.
  intros Hat Hx.
  induction l0 as [|a l0 IH]; simpl; [reflexivity |].
  unfold slot_at at 1. rewrite Hat, Hx. simpl. exact IH.
Qed.

Lemma alive_del (k' : kernel) (p pos : ptr) (x : dal_keystore_ctx)
    (s : list (ptr * dal_keystore_slot)) :
  ctx_at p (dal_contexts k') = Some x ->
  slots x = list_del pos s ->
  NoDup (map fst s) ->
  filter (fun a => slot_at p a k') (map fst s) = map fst (slots x).
Proof.
  intros Hat Hx Hnd. rewrite Hx.
  rewrite <- (filter_survivors pos s Hnd).
  apply filter_ext. intros a. unfold slot_at. now rewrite Hat, Hx.
Qed.

(** What the allocation of a slot through a context pointer leaves in the
    registry. *)
Lemma exec_allocate_slot (q0 : ptr) (mem : option ptr) (k : kernel) :
  (ctx_at q0 (dal_contexts k) = None /\
   exec (AllocateSlot (Some q0) mem) k = k)
  \/
  (exists x0 item x',
      ctx_at q0 (dal_contexts k) = Some x0 /\
      dal_keystore_allocate_slot (Some x0) mem = (item, Some x') /\
      dal_contexts (exec (AllocateSlot (Some q0) mem) k)
      = update_at q0 (fun _ => x') (dal_contexts k) /\
      ((exists it, item = Some it /\
                   map fst (slots x') = it :: map fst (slots x0))
       \/ (item = None /\ x' = x0))).
Proof.
  cbn [exec]. unfold with_ctx.
  destruct (ctx_at q0 (dal_contexts k)) as [x0|] eqn:E0; [right | left; auto].
  destruct (dal_keystore_allocate_slot (Some x0) mem) as [item ctx'] eqn:A.
  pose proof (allocate_slot_inv _ _ _ _ A) as Hinv. cbv zeta in Hinv.
  cbn [snd].
  destruct Hinv as [[it [-> [_ [_ ->]]]]|[-> [-> _]]].
  - exists x0, (Some it), (with_new_slot x0 it
                              (lowest_unused_id (Some x0)
                                 (Z.to_nat DAL_KEYSTORE_SLOTS_MAX) 0)).
    split; [reflexivity |]. split; [exact A |]. split; [reflexivity |].
    left. exists it. auto.
  - exists x0, None, x0.
    split; [reflexivity |]. split; [exact A |]. split; [reflexivity |].
    right. auto.
Qed.

(** A call keeps the slot list of every context equal to the history of
    its slots. *)
Lemma exec_slots_born (c : call) (k : kernel) (h : ptr -> list ptr) :
  valid_call c k = true ->
  NoDup (map fst (dal_contexts k)) ->
  every_ctx slots_apart (dal_contexts k) ->
  (forall p x, In (p, x) (dal_contexts k) -> map fst (slots x) = h p) ->
  forall p x,
    In (p, x) (dal_contexts (exec c k)) ->
    map fst (slots x) = slots_born_after c k h p.
Proof.
  intros Hv Hnd Hap Hh p x Hin.
  pose proof (exec_addresses_distinct c k Hv Hnd) as Hnd'.
  pose proof (ctx_at_of_In p x _ Hnd' Hin) as Hat.
  assert (Hkept : In (p, x) (dal_contexts k) ->
                  filter (fun a => slot_at p a (exec c k)) (h p)
                  = map fst (slots x)).
  { intros Hold. rewrite <- (Hh p x Hold).
    apply (alive_same _ p x); [exact Hat | apply incl_refl]. }
  assert (Hchange : registry_change None (dal_contexts k)
                      (dal_contexts (exec c k)) ->
                    filter (fun a => slot_at p a (exec c k)) (h p)
                    = map fst (slots x)).
  { intros [pos E| E|_ Htouch].
    - apply Hkept. rewrite E in Hin. eapply list_del_In, Hin.
    - rewrite E in Hin. destruct Hin.
    - destruct (Htouch p x Hin) as [Hold|[c0 [Hc0 Hch]]]; [now apply Hkept |].
      rewrite <- (Hh p c0 Hc0).
      destruct Hch as [->|item id Hnew _ _ _|pos Hx|ticket ->|q key ->].
      + apply (alive_same _ p c0); [exact Hat | apply incl_refl].
      + discriminate Hnew.
      + apply (alive_del _ p pos x); [exact Hat | | exact (Hap p c0 Hc0)].
        now rewrite Hx.
      + apply (alive_same _ p _ _ Hat). apply incl_refl.
      + cbn [slots]. rewrite update_at_fst.
        apply (alive_same _ p _ _ Hat). cbn [slots].
        rewrite update_at_fst. apply incl_refl. }
  destruct c as [mem|ctx|ticket| |ticket|ctx mem|ctx id|ctx id|ctx ticket
                |ctx slot key];
    try (match goal with
         | |- _ = slots_born_after ?call _ _ _ =>
             unfold slots_born_after; symmetry; apply Hchange;
             apply (exec_registry_change call k); discriminate
         end).
  - (* a context is allocated *)
    unfold slots_born_after. symmetry.
    cbn [exec] in *.
    destruct (allocate_context_inv mem k) as [[p0 [_ [_ Hr]]]|[_ Hr]];
      rewrite Hr in *; cbn [snd dal_contexts] in *; [| now apply Hkept].
    destruct Hin as [E|Hold]; [| now apply Hkept].
    inversion E; subst.
    now apply (alive_none _ p (zeroed_ctx)).
  - (* a slot is allocated *)
    destruct ctx as [q0|];
      [| unfold slots_born_after; symmetry; now apply Hkept].
    destruct (exec_allocate_slot q0 mem k) as [[E0 Ek]|Hsome].
    + unfold slots_born_after. rewrite E0. rewrite Ek in *.
      simpl. destruct (Pos.eqb q0 p); symmetry; now apply Hkept.
    + destruct Hsome as [x0 [item [x' [E0 [A [Ek Hres]]]]]].
      pose proof (ctx_at_In _ _ _ E0) as Hx0.
      unfold slots_born_after. rewrite E0, A. cbn [fst].
      rewrite Ek in Hin. apply update_at_In_sharp in Hin.
      destruct Hin as [[Hne Hold]|[-> [y [_ ->]]]].
      * apply Pos.eqb_neq in Hne. rewrite Pos.eqb_sym, Hne.
        symmetry. now apply Hkept.
      * rewrite Pos.eqb_refl.
        destruct Hres as [[it [-> Hx']]|[-> ->]].
        -- rewrite Hx'. f_equal. rewrite <- (Hh q0 x0 Hx0).
           symmetry. apply (alive_same _ q0 _ _ Hat).
           rewrite Hx'. apply incl_tl, incl_refl.
        -- rewrite <- (Hh q0 x0 Hx0).
           symmetry. apply (alive_same _ q0 _ _ Hat). apply incl_refl.
Qed.

(** C5, as the code has it: [list_add] links a new slot in at the head, so
    a traversal of the slots of a context meets them youngest first.  Each
    allocation puts its slot before all the slots allocated earlier and
    leaves those in place, a release unlinks one slot and leaves the others
    in their order, and in every reachable state the slot list of every
    context is the history of its live slots, the last allocated first. *)
Theorem slots_iterate_youngest_first :
  (forall c mem item ctx',
      dal_keystore_allocate_slot (Some c) mem = (Some item, ctx') ->
      exists c' s, ctx' = Some c' /\ slots c' = (item, s) :: slots c)
  /\
  (forall mems c c',
      allocate_slots c mems = Some c' ->
      map fst (slots c') = rev mems ++ map fst (slots c))
  /\
  (forall c id m c' m',
      NoDup (map fst (slots c)) ->
      dal_keystore_free_slot_id (Some c) id m = (0, Some c', m') ->
      exists l1 x l2, slots c = l1 ++ x :: l2 /\ slots c' = l1 ++ l2)
  /\
  (forall k born, reachable k born -> exists h, slot_history k born h)
  /\
  (forall k born h p c,
      slot_history k born h ->
      In (p, c) (dal_contexts k) ->
      map fst (slots c) = h p).
Proof.
  split; [| split; [| split; [| split]]].
  - intros c mem item ctx' H.
    destruct (allocate_slot_picks_lowest _ _ _ _ H) as [id [-> _]].
    eexists. eexists. split; reflexivity.
  - induction mems as [|p mems IH]; intros c c' H; cbn [allocate_slots] in H.
    + inversion H. reflexivity.
    + destruct (dal_keystore_allocate_slot (Some c) (Some p))
        as [[item|] [c1|]] eqn:E; try discriminate.
      pose proof (allocate_slot_inv _ _ _ _ E) as Hinv. cbv zeta in Hinv.
      destruct Hinv as [[q [Hq [Hm [_ Hc]]]]|[Hn _]]; [| discriminate].
      inversion Hm. subst q. inversion Hc. subst c1.
      rewrite (IH _ _ H). simpl. now rewrite <- app_assoc.
  - intros c id m c' m' Hnd H.
    destruct (free_slot_id_hit _ _ _ _ _ Hnd H)
      as [_ [l1 [p [s [l2 [E [_ [_ [-> _]]]]]]]]].
    exists l1, (p, s), l2. auto.
  - exact reachable_slot_history.
  - intros k born h p c Hk. revert p c.
    induction Hk as [|call k born h Hk IH Hv]; intros p c Hin.
    + destruct Hin.
    + pose proof (slot_history_reachable _ _ _ Hk) as Hreach.
      destruct (reachable_inv k born Hreach) as [Hnd [_ [_ [_ Hap]]]].
      now apply (exec_slots_born call k h Hv Hnd Hap IH).
Qed.

End Keystore.

(** ** Instances

    The statements above at the sample data, with two client contexts, four
    slots per context, tickets of two bytes and keys of four bytes unless
    said otherwise. *)

Example memcmp_on_tickets :
  memcmp ticket_a ticket_b 2 = -1 /\
  memcmp ticket_b ticket_a 2 = 1 /\
  memcmp ticket_a ticket_b 1 = 0.
Proof. repeat split. Qed.

Example find_slot_id_on_sample :
  dal_keystore_find_slot_id 4 (Some ctx_ids_2_0) 2 = Some 5%positive /\
  dal_keystore_find_slot_id 4 (Some ctx_ids_2_0) 0 = Some 3%positive /\
  dal_keystore_find_slot_id 4 (Some ctx_ids_2_0) 1 = None /\
  dal_keystore_find_slot_id 4 (Some ctx_ids_2_0) (-1) = None /\
  dal_keystore_find_slot_id 4 (Some ctx_ids_2_0) 4 = None /\
  dal_keystore_find_slot_id 4 None 0 = None.
Proof. repeat split. Qed.

Example free_context_ctx_on_sample :
  dal_keystore_free_context_ctx (Some 1%positive) two_blank_contexts
  = (0,
     {| dal_contexts := [(2%positive, blank_ctx)];
        released := [(1%positive, KCtx blank_ctx)] |}) /\
  dal_keystore_free_context_ctx (Some 7%positive) two_blank_contexts
  = (- EINVAL, two_blank_contexts) /\
  dal_keystore_free_context_ctx None two_blank_contexts
  = (- EFAULT, two_blank_contexts).
Proof. repeat split. Qed.

Example free_contexts_on_sample :
  dal_keystore_free_contexts one_loaded_context
  = {| dal_contexts := [];
       released := [(1%positive, KCtx blank_ctx);
                    (3%positive, KSlot (blank_slot 0));
                    (5%positive, KSlot (blank_slot 0))] |} /\
  dal_keystore_free_contexts boot = boot.
Proof. repeat split. Qed.

Lemma two_blank_contexts_reachable :
  reachable 2 4 2 4 two_blank_contexts [2; 1]%positive.
Proof.
  change two_blank_contexts
    with (exec 2 4 2 4 (AllocateContext (Some 2%positive))
            (exec 2 4 2 4 (AllocateContext (Some 1%positive)) boot)).
  change [2; 1]%positive
    with (born_after 2 4 2 4 (AllocateContext (Some 2%positive))
            (exec 2 4 2 4 (AllocateContext (Some 1%positive)) boot)
            (born_after 2 4 2 4 (AllocateContext (Some 1%positive)) boot [])).
  apply reachable_call; [| reflexivity].
  apply reachable_call; [| reflexivity].
  apply reachable_boot.
Qed.

(** With room for one context of one slot, the registry of
    [one_slot_context] is full, and so is its context. *)
Lemma one_slot_context_reachable :
  reachable 1 1 2 4 one_slot_context [1]%positive.
Proof.
  change one_slot_context
    with (exec 1 1 2 4 (AllocateSlot (Some 1%positive) (Some 2%positive))
            (exec 1 1 2 4 (AllocateContext (Some 1%positive)) boot)).
  change [1]%positive
    with (born_after 1 1 2 4 (AllocateSlot (Some 1%positive) (Some 2%positive))
            (exec 1 1 2 4 (AllocateContext (Some 1%positive)) boot)
            (born_after 1 1 2 4 (AllocateContext (Some 1%positive)) boot [])).
  apply reachable_call; [| reflexivity].
  apply reachable_call; [| reflexivity].
  apply reachable_boot.
Qed.

Lemma allocate_slot_lowest_free_id_witness :
  (exists id,
      snd (dal_keystore_allocate_slot 4 4 (Some ctx_ids_2_0) (Some 7%positive))
      = Some (with_new_slot 4 ctx_ids_2_0 7%positive id) /\
      0 <= id < 4 /\
      ~ In id (slot_ids ctx_ids_2_0) /\
      (forall j, 0 <= j < id -> In j (slot_ids ctx_ids_2_0)))
  /\
  (exists c1 c2 c3 c4 c5 m',
      dal_keystore_allocate_slot 4 4 (Some blank_ctx) (Some 1%positive)
      = (Some 1%positive, Some c1) /\
      slot_ids c1 = [0] /\
      dal_keystore_allocate_slot 4 4 (Some c1) (Some 2%positive)
      = (Some 2%positive, Some c2) /\
      slot_ids c2 = [1; 0] /\
      dal_keystore_allocate_slot 4 4 (Some c2) (Some 3%positive)
      = (Some 3%positive, Some c3) /\
      slot_ids c3 = [2; 1; 0] /\
      dal_keystore_free_slot_id 4 (Some c3) 1 [] = (0, Some c4, m') /\
      slot_ids c4 = [2; 0] /\
      dal_keystore_allocate_slot 4 4 (Some c4) (Some 4%positive)
      = (Some 4%positive, Some c5) /\
      slot_ids c5 = [1; 2; 0]).
Proof.
  split.
  - apply (proj1 (allocate_slot_lowest_free_id 4 4)
             ctx_ids_2_0 (Some 7%positive) 7%positive).
    reflexivity.
  - apply (proj2 (allocate_slot_lowest_free_id 4 4)
             blank_ticket 1%positive 2%positive 3%positive 4%positive []).
    + lia.
    + discriminate.
Defined.

Lemma capacity_is_enforced_witness :
  (Z.of_nat (length (dal_contexts one_slot_context)) <= 1 /\
   (forall p c, In (p, c) (dal_contexts one_slot_context) ->
                Z.of_nat (length (slots c)) <= 1))
  /\
  dal_keystore_allocate_context 1 2 (Some 9%positive) one_slot_context
  = (None, one_slot_context)
  /\
  dal_keystore_allocate_slot 1 4
    (Some {| client_ticket := blank_ticket;
             slots := [(2%positive, blank_slot 0)] |})
    (Some 9%positive)
  = (None,
     Some {| client_ticket := blank_ticket;
             slots := [(2%positive, blank_slot 0)] |}).
Proof.
  assert (Hc : 0 <= 1 < UINT_MODULUS) by (unfold UINT_MODULUS; lia).
  assert (Hs : 0 <= 1) by lia.
  destruct (capacity_is_enforced 1 1 2 4 Hc Hs) as [Hbound [Hctx Hslot]].
  split; [| split].
  - exact (Hbound one_slot_context [1%positive] one_slot_context_reachable).
  - apply Hctx. reflexivity.
  - apply (Hslot one_slot_context [1%positive] 1%positive).
    + exact one_slot_context_reachable.
    + left. reflexivity.
    + reflexivity.
Defined.

Lemma destroyed_slots_are_zeroed_witness :
  erased (fun e => In e (slots ctx_ids_2_0) /\
                   ~ In e [(3%positive, loaded_slot 0)])
         [] [(5%positive, KSlot (memzero_slot (loaded_slot 2)))]
  /\
  erased (fun e => slot_of one_loaded_context e /\
                   ~ slot_of (snd (dal_keystore_free_context_ctx
                                     (Some 1%positive) one_loaded_context)) e)
         []
         (released (snd (dal_keystore_free_context_ctx
                           (Some 1%positive) one_loaded_context)))
  /\
  erased (fun e => slot_of one_loaded_context e /\
                   ~ slot_of (snd (dal_keystore_free_context_ticket 2
                                     (Some ticket_a) one_loaded_context)) e)
         []
         (released (snd (dal_keystore_free_context_ticket 2
                           (Some ticket_a) one_loaded_context)))
  /\
  (dal_contexts (dal_keystore_free_contexts one_loaded_context) = [] /\
   erased (slot_of one_loaded_context) []
          (released (dal_keystore_free_contexts one_loaded_context))).
Proof.
  destruct (destroyed_slots_are_zeroed 4 2) as [Hslot [Hctx [Hticket Hall]]].
  split; [| split; [| split]].
  - apply (Hslot ctx_ids_2_0 2 []
             {| client_ticket := ticket_a;
                slots := [(3%positive, loaded_slot 0)] |}).
    + distinct_by_cases.
    + reflexivity.
  - apply (Hctx (Some 1%positive) one_loaded_context).
    + distinct_by_cases.
    + reflexivity.
  - apply (Hticket (Some ticket_a) one_loaded_context).
    + distinct_by_cases.
    + reflexivity.
  - exact (Hall one_loaded_context).
Defined.

Lemma slot_ids_stay_unique_witness :
  NoDup (slot_ids {| client_ticket := blank_ticket;
                     slots := [(2%positive, blank_slot 0)] |})
  /\
  every_ctx ids_unique
    (dal_contexts (exec 2 4 2 4 (AllocateSlot (Some 1%positive) (Some 9%positive))
                     one_loaded_context))
  /\
  NoDup (slot_ids (with_new_slot 4 ctx_ids_2_0 9%positive 1))
  /\
  NoDup (slot_ids {| client_ticket := ticket_a;
                     slots := [(3%positive, loaded_slot 0)] |}).
Proof.
  assert (Hids : NoDup (slot_ids ctx_ids_2_0)) by distinct_by_cases.
  split; [| split; [| split]].
  - apply (proj1 (slot_ids_stay_unique 1 1 2 4)
             one_slot_context [1%positive] 1%positive).
    + exact one_slot_context_reachable.
    + left. reflexivity.
  - apply (proj1 (proj2 (slot_ids_stay_unique 2 4 2 4))).
    intros p c [E|[]]. inversion E. exact Hids.
  - apply (proj1 (proj2 (proj2 (slot_ids_stay_unique 2 4 2 4)))
             ctx_ids_2_0 (Some 9%positive) (Some 9%positive)).
    + exact Hids.
    + reflexivity.
  - apply (proj2 (proj2 (proj2 (slot_ids_stay_unique 2 4 2 4)))
             ctx_ids_2_0 2 [] 0 _
             [(5%positive, KSlot (memzero_slot (loaded_slot 2)))]).
    + exact Hids.
    + reflexivity.
Defined.

Lemma context_after_free_history :
  exists h,
    slot_history 2 4 2 4 context_after_free [1]%positive h /\
    h 1%positive = [4; 2]%positive.
Proof.
  pose proof (slot_history_call 2 4 2 4
                (AllocateContext (Some 1%positive)) _ _ _
                (slot_history_boot 2 4 2 4) eq_refl) as H1.
  pose proof (slot_history_call 2 4 2 4
                (AllocateSlot (Some 1%positive) (Some 2%positive)) _ _ _
                H1 eq_refl) as H2.
  pose proof (slot_history_call 2 4 2 4
                (AllocateSlot (Some 1%positive) (Some 3%positive)) _ _ _
                H2 eq_refl) as H3.
  pose proof (slot_history_call 2 4 2 4
                (AllocateSlot (Some 1%positive) (Some 4%positive)) _ _ _
                H3 eq_refl) as H4.
  pose proof (slot_history_call 2 4 2 4
                (FreeSlotId (Some 1%positive) 1) _ _ _
                H4 eq_refl) as H5.
  eexists. split; [exact H5 | reflexivity].
Qed.

Lemma slots_iterate_youngest_first_witness :
  (exists c' s,
      snd (dal_keystore_allocate_slot 4 4 (Some ctx_ids_2_0) (Some 7%positive))
      = Some c' /\
      slots c' = (7%positive, s) :: slots ctx_ids_2_0)
  /\
  map fst (slots (with_new_slot 4
                    (with_new_slot 4 (with_new_slot 4 blank_ctx 1%positive 0)
                       2%positive 1)
                    3%positive 2))
  = rev [1; 2; 3]%positive ++ map fst (slots blank_ctx)
  /\
  (exists l1 x l2,
      slots ctx_ids_2_0 = l1 ++ x :: l2 /\
      [(5%positive, loaded_slot 2)] = l1 ++ l2)
  /\
  (exists h, slot_history 2 4 2 4 two_blank_contexts [2; 1]%positive h)
  /\
  (exists h,
      h 1%positive = [4; 2]%positive /\
      map fst [(4%positive, blank_slot 2); (2%positive, blank_slot 0)]
      = h 1%positive).
Proof.
  destruct (slots_iterate_youngest_first 2 4 2 4)
    as [Hstep [Hrun [Hfree [Hany Horder]]]].
  split; [| split; [| split; [| split]]].
  - apply (Hstep ctx_ids_2_0 (Some 7%positive) 7%positive).
    reflexivity.
  - apply (Hrun [1; 2; 3]%positive).
    reflexivity.
  - apply (Hfree ctx_ids_2_0 0 []
             {| client_ticket := ticket_a;
                slots := [(5%positive, loaded_slot 2)] |}
             [(3%positive, KSlot (blank_slot 0))]).
    + distinct_by_cases.
    + reflexivity.
  - apply Hany. exact two_blank_contexts_reachable.
  - destruct context_after_free_history as [h [Hh E]].
    exists h. split; [exact E |].
    apply (Horder context_after_free [1%positive] h 1%positive
             {| client_ticket := blank_ticket;
                slots := [(4%positive, blank_slot 2);
                          (2%positive, blank_slot 0)] |} Hh).
    left. reflexivity.
Defined.

(** C5 as the specification words it fails: two slots allocated in a fresh
    context, first at address 1 and then at address 2, are met in the
    order 2, 1, the first allocated coming last. *)
Lemma slots_not_in_allocation_order :
  exists c,
    allocate_slots 4 4 blank_ctx [1; 2]%positive = Some c /\
    map fst (slots c) = [2; 1]%positive /\
    slot_ids c = [1; 0] /\
    map fst (slots c) <> [1; 2]%positive.
Proof.
  eexists. split; [reflexivity |]. repeat split. discriminate.
Qed.

Lemma free_slot_id_results_witness :
  dal_keystore_free_slot_id 4 (Some ctx_ids_2_0) (-1) []
  = (- EINVAL, Some ctx_ids_2_0, [])
  /\
  dal_keystore_free_slot_id 4 (Some ctx_ids_2_0) 1 []
  = (- EINVAL, Some ctx_ids_2_0, [])
  /\
  (exists l1 p s l2,
      slots ctx_ids_2_0 = l1 ++ (p, s) :: l2 /\
      slot_id s = 0 /\
      ~ In 0 (map (fun e => slot_id (snd e)) l1) /\
      dal_keystore_free_slot_id 4 (Some ctx_ids_2_0) 0 []
      = (0,
         Some {| client_ticket := client_ticket ctx_ids_2_0; slots := l1 ++ l2 |},
         [(p, KSlot (memzero_slot s))])).
Proof.
  destruct (free_slot_id_results 4) as [_ [Hrange [Hmiss Hhit]]].
  split; [| split].
  - apply Hrange. lia.
  - apply Hmiss; [lia |]. simpl. intuition discriminate.
  - apply Hhit.
    + lia.
    + simpl. auto.
    + distinct_by_cases.
Defined.

(** C6 as the specification words it fails: an id in range that no slot
    has gets the very code an id out of range gets, [-EINVAL], so a
    missing slot is not told apart from an invalid argument. *)
Lemma free_slot_id_miss_like_out_of_range :
  fst (fst (dal_keystore_free_slot_id 4 (Some blank_ctx) (-1) [])) = - EINVAL /\
  fst (fst (dal_keystore_free_slot_id 4 (Some blank_ctx) 0 [])) = - EINVAL /\
  fst (fst (dal_keystore_free_slot_id 4 (Some ctx_ids_2_0) 1 [])) = - EINVAL /\
  ~ (fst (fst (dal_keystore_free_slot_id 4 (Some blank_ctx) 0 []))
     <> fst (fst (dal_keystore_free_slot_id 4 (Some blank_ctx) (-1) []))).
Proof.
  split; [reflexivity |]. split; [reflexivity |]. split; [reflexivity |].
  intros H. apply H. reflexivity.
Qed.

Lemma find_context_ticket_first_match_witness :
  (exists l1 item l2,
      dal_contexts one_loaded_context = l1 ++ (1%positive, item) :: l2 /\
      ticket_matches 2 ticket_a item /\
      (forall e, In e l1 -> ~ ticket_matches 2 ticket_a (snd e)))
  /\
  ~ ticket_matches 2 ticket_b ctx_ids_2_0.
Proof.
  destruct (find_context_ticket_first_match 2) as [_ [Hhit [_ Hbyte]]].
  split.
  - apply (Hhit ticket_a one_loaded_context 1%positive). reflexivity.
  - apply (Hbyte ticket_b ctx_ids_2_0 1%nat).
    + apply Nat.lt_succ_diag_r.
    + discriminate.
Defined.

(** C7 as the specification words it fails: a NULL ticket and a ticket
    that misses by one byte get the same answer, NULL. *)
Lemma find_context_ticket_null_like_miss :
  dal_keystore_find_context_ticket 2 None one_loaded_context = None /\
  dal_keystore_find_context_ticket 2 (Some ticket_b) one_loaded_context = None /\
  ~ (dal_keystore_find_context_ticket 2 None one_loaded_context
     <> dal_keystore_find_context_ticket 2 (Some ticket_b) one_loaded_context).
Proof.
  split; [reflexivity |]. split; [reflexivity |].
  intros H. apply H. reflexivity.
Qed.

Lemma free_context_ticket_then_find_witness :
  exists l1 pos item l2,
    dal_contexts one_loaded_context = l1 ++ (pos, item) :: l2 /\
    (forall e, In e l1 -> ~ ticket_matches 2 ticket_a (snd e)) /\
    ticket_matches 2 ticket_a item /\
    dal_contexts (snd (dal_keystore_free_context_ticket 2 (Some ticket_a)
                         one_loaded_context))
    = l1 ++ l2 /\
    released (snd (dal_keystore_free_context_ticket 2 (Some ticket_a)
                     one_loaded_context))
    = ctx_images pos item ++ released one_loaded_context /\
    dal_keystore_find_context_ticket 2 (Some ticket_a)
      (snd (dal_keystore_free_context_ticket 2 (Some ticket_a)
              one_loaded_context))
    = find_context_ticket_loop 2 ticket_a l2 /\
    (dal_keystore_find_context_ticket 2 (Some ticket_a)
       (snd (dal_keystore_free_context_ticket 2 (Some ticket_a)
               one_loaded_context))
     = None <->
     (forall e, In e l2 -> ~ ticket_matches 2 ticket_a (snd e))).
Proof.
  apply (free_context_ticket_then_find 2 ticket_a one_loaded_context).
  - distinct_by_cases.
  - reflexivity.
Defined.

(** C8 as the specification words it fails: in the reachable registry of
    two contexts whose tickets are still blank, freeing by the blank ticket
    succeeds, and a lookup of the same ticket then finds the other
    context. *)
Lemma free_context_ticket_leaves_twin :
  reachable 2 4 2 4 two_blank_contexts [2; 1]%positive /\
  fst (dal_keystore_free_context_ticket 2 (Some blank_ticket)
         two_blank_contexts) = 0 /\
  dal_keystore_find_context_ticket 2 (Some blank_ticket)
    (snd (dal_keystore_free_context_ticket 2 (Some blank_ticket)
            two_blank_contexts))
  = Some 1%positive /\
  dal_keystore_find_context_ticket 2 (Some blank_ticket)
    (snd (dal_keystore_free_context_ticket 2 (Some blank_ticket)
            two_blank_contexts))
  <> None.
Proof.
  split; [exact two_blank_contexts_reachable |].
  split; [reflexivity |]. split; [reflexivity | discriminate].
Qed.

Lemma failed_call_changes_nothing_witness :
  snd (dal_keystore_allocate_context 2 2 (Some 9%positive) two_blank_contexts)
  = two_blank_contexts
  /\
  snd (dal_keystore_allocate_slot 4 4 None (Some 9%positive)) = None
  /\
  (snd (fst (dal_keystore_free_slot_id 4 (Some ctx_ids_2_0) 1 []))
   = Some ctx_ids_2_0 /\
   snd (dal_keystore_free_slot_id 4 (Some ctx_ids_2_0) 1 []) = [])
  /\
  snd (dal_keystore_free_context_ctx (Some 7%positive) two_blank_contexts)
  = two_blank_contexts
  /\
  snd (dal_keystore_free_context_ticket 2 (Some ticket_a) two_blank_contexts)
  = two_blank_contexts.
Proof.
  destruct (failed_call_changes_nothing 2 4 2 4)
    as [Hctx [Hslot [Hfree [Hbyctx Hbyticket]]]].
  split; [| split; [| split; [| split]]].
  - apply (Hctx (Some 9%positive) two_blank_contexts). reflexivity.
  - apply (Hslot None (Some 9%positive)). reflexivity.
  - apply (Hfree (Some ctx_ids_2_0) 1 [] (- EINVAL)).
    + reflexivity.
    + discriminate.
  - apply (Hbyctx (Some 7%positive) two_blank_contexts (- EINVAL)).
    + reflexivity.
    + discriminate.
  - apply (Hbyticket (Some ticket_a) two_blank_contexts (- EINVAL)).
    + reflexivity.
    + discriminate.
Defined.

Lemma youngest_matching_context_wins_witness :
  dal_contexts (snd (dal_keystore_allocate_context 2 2 (Some 1%positive) boot))
  = (1%positive, zeroed_ctx 2) :: dal_contexts boot
  /\
  map fst (dal_contexts two_blank_contexts) = [2; 1]%positive
  /\
  (exists younger older c,
      [2; 1]%positive = younger ++ 2%positive :: older /\
      ctx_at 2%positive (dal_contexts two_blank_contexts) = Some c /\
      ticket_matches 2 blank_ticket c /\
      (forall q x,
          In q younger ->
          ctx_at q (dal_contexts two_blank_contexts) = Some x ->
          ~ ticket_matches 2 blank_ticket x))
  /\
  (exists p,
      dal_keystore_find_context_ticket 2 (Some blank_ticket) two_blank_contexts
      = Some p /\
      dal_contexts (snd (dal_keystore_free_context_ticket 2 (Some blank_ticket)
                           two_blank_contexts))
      = list_del p (dal_contexts two_blank_contexts) /\
      is_ctx p (snd (dal_keystore_free_context_ticket 2 (Some blank_ticket)
                       two_blank_contexts))
      = false).
Proof.
  destruct (youngest_matching_context_wins 2 4 2 4) as [Hhead Horder].
  destruct (Horder two_blank_contexts [2; 1]%positive
              two_blank_contexts_reachable) as [Hborn [Hfind Hfree]].
  split; [| split; [| split]].
  - apply (Hhead (Some 1%positive) boot 1%positive). reflexivity.
  - exact Hborn.
  - apply (Hfind blank_ticket 2%positive). reflexivity.
  - apply (Hfree blank_ticket). reflexivity.
Defined.

(** ** Energy model *)

Lemma last_cons_default {A : Type} (l : list A) (x d : A) :
  last (x :: l) d = last l x.
Proof.
  revert x d.
  induction l as [|e l IH]; intros x d; [reflexivity |].
  change (last (x :: e :: l) d) with (last (e :: l) d).
  now rewrite !IH.
Qed.

Lemma em_lowest_state_above_spec (pre suf : list em_cap_state) (nr freq : Z)
    (fuel : nat) (cs : em_cap_state) :
  nr = Z.of_nat (length (pre ++ suf)) ->
  (length suf <= fuel)%nat ->
  em_lowest_state_above {| state := pre ++ suf; nr_cap_states := nr |}
    freq fuel (Z.of_nat (length pre)) cs
  = Some (em_pick suf freq cs).
Proof.
  revert pre fuel cs.
  induction suf as [|x suf IH]; intros pre fuel cs Hnr Hfuel.
  - rewrite app_nil_r in *. destruct fuel as [|n]; simpl; [reflexivity |].
    destruct (Z.ltb_spec (Z.of_nat (length pre)) nr); [lia | reflexivity].
  - destruct fuel as [|n]; [simpl in Hfuel; lia |].
    cbn [em_lowest_state_above nr_cap_states].
    rewrite length_app in Hnr. simpl in Hnr.
    destruct (Z.ltb_spec (Z.of_nat (length pre)) nr); [| lia].
    unfold em_state_at. cbn [state].
    destruct (Z.ltb_spec (Z.of_nat (length pre)) 0); [lia |].
    rewrite Nat2Z.id, nth_error_app2, Nat.sub_diag by lia.
    cbn [nth_error]. unfold em_pick. cbn [find].
    destruct (frequency x >=? freq); [reflexivity |].
    replace (pre ++ x :: suf) with ((pre ++ [x]) ++ suf)
      by (rewrite <- app_assoc; reflexivity).
    replace (Z.of_nat (length pre) + 1) with (Z.of_nat (length (pre ++ [x])))
      by (rewrite length_app; simpl; lia).
    rewrite IH.
    + unfold em_pick. destruct (find _ suf); [reflexivity |].
      now rewrite last_cons_default.
    + rewrite !length_app. simpl. lia.
    + simpl in Hfuel. lia.
Qed.

Lemma em_state_at_top (t : em_cs_table) (d : em_cap_state) :
  nr_cap_states t = Z.of_nat (length (state t)) ->
  state t <> [] ->
  em_state_at t (nr_cap_states t - 1) = Some (last (state t) d).
Proof.
  intros Hnr Hne. unfold em_state_at.
  rewrite (app_removelast_last d Hne) in Hnr.
  rewrite length_app in Hnr. simpl in Hnr.
  destruct (Z.ltb_spec (nr_cap_states t - 1) 0); [lia |].
  rewrite (app_removelast_last d Hne) at 1.
  rewrite nth_error_app2 by lia.
  replace (Z.to_nat (nr_cap_states t - 1) - length (removelast (state t)))%nat
    with 0%nat by lia.
  reflexivity.
Qed.

Lemma find_first {A : Type} (f : A -> bool) (l : list A) (x : A) :
  find f l = Some x ->
  exists l1 l2,
    l = l1 ++ x :: l2 /\ f x = true /\ (forall y, In y l1 -> f y = false).
Proof.
  induction l as [|a l IH]; simpl; [discriminate |].
  destruct (f a) eqn:Fa.
  - intros H. inversion H. subst a.
    exists [], l. simpl. tauto.
  - intros H. destruct (IH H) as [l1 [l2 [-> [Hx Hl1]]]].
    exists (a :: l1), l2. simpl. repeat split; try assumption.
    intros y [<-|Hy]; auto.
Qed.

(** X15: [em_fd_energy] returns 0 for a domain without a table.  For a
    table whose count is the length of its array, with at least one state
    and no zero capacity, it maps the highest utilization to a frequency
    with the last state's frequency and capacity, takes the first state of
    the table whose frequency reaches it, or the last state when none
    does, and returns that state's power times the summed utilization, cut
    to an [unsigned long], divided by its capacity. *)
Theorem em_fd_energy_at_lowest_sufficient_state :
  (forall map_util_freq bits max_util sum_util,
      em_fd_energy map_util_freq bits {| cs_table := None |} max_util sum_util
      = Some 0)
  /\
  (forall map_util_freq bits t max_util sum_util d,
      nr_cap_states t = Z.of_nat (length (state t)) ->
      state t <> [] ->
      (forall cs, In cs (state t) -> capacity cs <> 0) ->
      let top := last (state t) d in
      let freq := map_util_freq max_util (frequency top) (capacity top) in
      exists cs,
        em_fd_energy map_util_freq bits {| cs_table := Some t |}
          max_util sum_util
        = Some ((power cs * sum_util) mod 2 ^ bits / capacity cs) /\
        ((exists l1 l2,
             state t = l1 ++ cs :: l2 /\
             freq <= frequency cs /\
             (forall x, In x l1 -> frequency x < freq))
         \/
         (cs = top /\ forall x, In x (state t) -> frequency x < freq))).
Proof.
  split; [reflexivity |].
  intros muf bits t max_util sum_util d Hnr Hne Hcap top freq.
  set (cs := em_pick (state t) freq top).
  assert (Hpick :
            (exists l1 l2,
                state t = l1 ++ cs :: l2 /\
                freq <= frequency cs /\
                (forall x, In x l1 -> frequency x < freq))
            \/
            (cs = top /\ forall x, In x (state t) -> frequency x < freq)).
  { unfold cs, em_pick.
    destruct (find _ (state t)) as [x|] eqn:F.
    - left. destruct (find_first _ _ _ F) as [l1 [l2 [E [Hx Hl1]]]].
      exists l1, l2. split; [exact E |]. split.
      + apply Z.geb_le in Hx. lia.
      + intros y Hy. apply Hl1 in Hy.
        destruct (Z.geb_spec (frequency y) freq); [discriminate | lia].
    - right. split.
      + unfold top. destruct (state t) as [|a l]; [congruence |].
        now rewrite !last_cons_default.
      + intros y Hy. apply (find_none _ _ F) in Hy.
        destruct (Z.geb_spec (frequency y) freq); [discriminate | lia]. }
  assert (Hin : In cs (state t)).
  { destruct Hpick as [[l1 [l2 [E _]]]|[-> _]].
    - rewrite E. apply in_app_iff. simpl. auto.
    - unfold top. rewrite (app_removelast_last d Hne) at 2.
      apply in_app_iff. simpl. auto. }
  exists cs. split; [| exact Hpick].
  unfold em_fd_energy. cbn [cs_table].
  rewrite (em_state_at_top t d Hnr Hne). fold top. cbv zeta. fold freq.
  destruct t as [st nr]. cbn [state nr_cap_states] in *.
  pose proof (em_lowest_state_above_spec [] st nr freq (Z.to_nat nr) top)
    as Hs.
  simpl in Hs. rewrite Hs by (simpl; lia). fold cs.
  destruct (Z.eqb_spec (capacity cs) 0) as [E|N]; [| reflexivity].
  elim (Hcap cs Hin E).
Qed.

(** ** Instances of the further properties *)

Lemma find_slot_id_result_witness :
  dal_keystore_find_slot_id 4 (Some ctx_ids_2_0) (-1) = None /\
  (dal_keystore_find_slot_id 4 (Some ctx_ids_2_0) 1 = None <->
   ~ In 1 (slot_ids ctx_ids_2_0)) /\
  (0 <= 2 < 4 /\
   exists l1 s l2,
     slots ctx_ids_2_0 = l1 ++ (5%positive, s) :: l2 /\ slot_id s = 2 /\
     ~ In 2 (map (fun e => slot_id (snd e)) l1)).
Proof.
  destruct (find_slot_id_result 4) as [_ [Hout [Hiff Hhit]]].
  split; [| split].
  - apply Hout. lia.
  - apply Hiff. lia.
  - apply (Hhit ctx_ids_2_0 2 5%positive). reflexivity.
Defined.

Lemma allocate_slot_then_find_witness :
  exists id,
    dal_keystore_find_slot_id 4 (Some ctx_ids_2_0) id = None /\
    dal_keystore_find_slot_id 4 (Some (with_new_slot 4 ctx_ids_2_0 7%positive 1)) id
    = Some 7%positive /\
    (forall j, j <> id ->
       dal_keystore_find_slot_id 4
         (Some (with_new_slot 4 ctx_ids_2_0 7%positive 1)) j
       = dal_keystore_find_slot_id 4 (Some ctx_ids_2_0) j).
Proof.
  apply (allocate_slot_then_find 4 4 ctx_ids_2_0 (Some 7%positive)).
  reflexivity.
Defined.

Lemma free_slot_then_find_witness :
  dal_keystore_find_slot_id 4
    (Some {| client_ticket := ticket_a;
             slots := [(3%positive, loaded_slot 0)] |}) 2 = None /\
  (forall j, j <> 2 ->
     dal_keystore_find_slot_id 4
       (Some {| client_ticket := ticket_a;
                slots := [(3%positive, loaded_slot 0)] |}) j
     = dal_keystore_find_slot_id 4 (Some ctx_ids_2_0) j) /\
  dal_keystore_free_slot_id 4
    (Some {| client_ticket := ticket_a;
             slots := [(3%positive, loaded_slot 0)] |}) 2
    [(5%positive, KSlot (blank_slot 0))]
  = (- EINVAL,
     Some {| client_ticket := ticket_a;
             slots := [(3%positive, loaded_slot 0)] |},
     [(5%positive, KSlot (blank_slot 0))]).
Proof.
  apply (free_slot_then_find 4 ctx_ids_2_0 2 []).
  - distinct_by_cases.
  - distinct_by_cases.
  - reflexivity.
Defined.

Lemma free_slot_then_allocate_witness :
  dal_keystore_allocate_slot 4 4
    (Some {| client_ticket := ticket_a;
             slots := [(5%positive, loaded_slot 2)] |})
    (Some 9%positive)
  = (Some 9%positive,
     Some (with_new_slot 4
             {| client_ticket := ticket_a;
                slots := [(5%positive, loaded_slot 2)] |}
             9%positive
             (Z.min 0 (lowest_unused_id 4 (Some ctx_ids_2_0) (Z.to_nat 4) 0)))).
Proof.
  apply (free_slot_then_allocate 4 4 ctx_ids_2_0 0 []
           {| client_ticket := ticket_a;
              slots := [(5%positive, loaded_slot 2)] |}
           [(3%positive, KSlot (blank_slot 0))] 9%positive).
  - distinct_by_cases.
  - distinct_by_cases.
  - reflexivity.
Defined.

Lemma allocate_slot_succeeds_iff_witness :
  fst (dal_keystore_allocate_slot 4 4 (Some ctx_ids_2_0) (Some 9%positive))
  = Some 9%positive.
Proof.
  apply (proj2 (allocate_slot_succeeds_iff 4 4) ctx_ids_2_0 9%positive).
  simpl. lia.
Defined.

Lemma live_slot_is_found_by_its_id_witness :
  0 <= slot_id (blank_slot 0) < 1 /\
  dal_keystore_find_slot_id 1
    (Some {| client_ticket := blank_ticket;
             slots := [(2%positive, blank_slot 0)] |})
    (slot_id (blank_slot 0))
  = Some 2%positive.
Proof.
  apply (live_slot_is_found_by_its_id 1 1 2 4 one_slot_context [1%positive]
           1%positive).
  - exact one_slot_context_reachable.
  - left. reflexivity.
  - left. reflexivity.
Defined.

Lemma allocate_context_result_witness :
  dal_keystore_allocate_context 2 2 (Some 9%positive) two_blank_contexts
  = (None, two_blank_contexts)
  /\
  dal_keystore_allocate_context 2 2 (Some 9%positive) one_loaded_context
  = (Some 9%positive,
     {| dal_contexts := (9%positive, zeroed_ctx 2)
                        :: dal_contexts one_loaded_context;
        released := released one_loaded_context |}).
Proof.
  destruct (allocate_context_result 2 2) as [_ [Hfull Hroom]].
  split.
  - apply Hfull; [reflexivity | simpl; lia].
  - apply Hroom; [reflexivity | simpl; lia].
Defined.

Lemma free_context_ctx_result_witness :
  dal_keystore_free_context_ctx (Some 7%positive) two_blank_contexts
  = (- EINVAL, two_blank_contexts)
  /\
  (exists l1 item l2,
      dal_contexts two_blank_contexts = l1 ++ (1%positive, item) :: l2 /\
      dal_keystore_free_context_ctx (Some 1%positive) two_blank_contexts
      = (0,
         {| dal_contexts := l1 ++ l2;
            released := ctx_images 1%positive item
                        ++ released two_blank_contexts |}) /\
      map fst (ctx_images 1%positive item)
      = 1%positive :: rev (map fst (slots item))).
Proof.
  destruct free_context_ctx_result as [_ [Habsent Hhit]].
  split.
  - apply Habsent. simpl. intuition discriminate.
  - apply Hhit.
    + distinct_by_cases.
    + simpl. auto.
Defined.

Lemma free_context_ctx_twice_witness :
  is_ctx 1%positive
    {| dal_contexts := [(2%positive, blank_ctx)];
       released := [(1%positive, KCtx blank_ctx)] |} = false /\
  (forall q, q <> 1%positive ->
     ctx_at q [(2%positive, blank_ctx)]
     = ctx_at q (dal_contexts two_blank_contexts)) /\
  dal_keystore_free_context_ctx (Some 1%positive)
    {| dal_contexts := [(2%positive, blank_ctx)];
       released := [(1%positive, KCtx blank_ctx)] |}
  = (- EINVAL,
     {| dal_contexts := [(2%positive, blank_ctx)];
        released := [(1%positive, KCtx blank_ctx)] |}).
Proof.
  apply (free_context_ctx_twice 1%positive two_blank_contexts).
  - distinct_by_cases.
  - reflexivity.
Defined.

Lemma free_contexts_idempotent_witness :
  dal_keystore_free_contexts boot = boot.
Proof.
  apply (proj1 (proj2 free_contexts_idempotent)). reflexivity.
Defined.

Lemma freed_context_makes_room_witness :
  fst (dal_keystore_allocate_context 1 2 (Some 9%positive)
         (snd (dal_keystore_free_context_ctx (Some 1%positive) one_slot_context)))
  = Some 9%positive
  /\
  fst (dal_keystore_allocate_context 1 2 (Some 9%positive)
         (snd (dal_keystore_free_context_ticket 2 (Some blank_ticket)
                 one_slot_context)))
  = Some 9%positive.
Proof.
  assert (Hc : 0 <= 1 < UINT_MODULUS) by (unfold UINT_MODULUS; lia).
  destruct (freed_context_makes_room 1 1 2 4 Hc one_slot_context [1%positive]
              one_slot_context_reachable) as [Hctx Hticket].
  split.
  - apply (Hctx (Some 1%positive)). reflexivity.
  - apply (Hticket (Some blank_ticket)). reflexivity.
Defined.

Lemma free_context_ticket_agrees_with_find_witness :
  fst (dal_keystore_free_context_ticket 2 (Some ticket_a) one_loaded_context) = 0
  /\
  dal_keystore_free_context_ticket 2 (Some ticket_b) one_loaded_context
  = (- EINVAL, one_loaded_context).
Proof.
  destruct (free_context_ticket_agrees_with_find 2) as [_ [Hhit Hmiss]].
  split.
  - apply Hhit. discriminate.
  - apply Hmiss. reflexivity.
Defined.

Lemma ticket_bytes_beyond_size_ignored_witness :
  dal_keystore_find_context_ticket 2 (Some (ticket_a ++ [Byte.xff]))
    one_loaded_context
  = dal_keystore_find_context_ticket 2 (Some ticket_a) one_loaded_context /\
  dal_keystore_free_context_ticket 2 (Some (ticket_a ++ [Byte.xff]))
    one_loaded_context
  = dal_keystore_free_context_ticket 2 (Some ticket_a) one_loaded_context.
Proof.
  apply ticket_bytes_beyond_size_ignored. reflexivity.
Defined.

Lemma allocate_then_free_context_witness :
  dal_keystore_free_context_ctx (Some 9%positive)
    (snd (dal_keystore_allocate_context 2 2 (Some 9%positive) one_loaded_context))
  = (0,
     {| dal_contexts := dal_contexts one_loaded_context;
        released := (9%positive, KCtx (memzero_ctx (zeroed_ctx 2)))
                    :: released one_loaded_context |}).
Proof.
  apply (allocate_then_free_context 2 2 (Some 9%positive)). reflexivity.
Defined.

Lemma allocate_then_free_slot_witness :
  exists id,
    slot_ids (with_new_slot 4 ctx_ids_2_0 7%positive 1)
    = id :: slot_ids ctx_ids_2_0 /\
    dal_keystore_free_slot_id 4
      (Some (with_new_slot 4 ctx_ids_2_0 7%positive 1)) id []
    = (0, Some ctx_ids_2_0,
       [(7%positive, KSlot (memzero_slot (zeroed_slot 4)))]).
Proof.
  apply (allocate_then_free_slot 4 4 ctx_ids_2_0 (Some 7%positive)).
  reflexivity.
Defined.

Lemma free_by_ticket_is_free_of_found_witness :
  dal_keystore_free_context_ticket 2 (Some blank_ticket) two_blank_contexts
  = dal_keystore_free_context_ctx (Some 2%positive) two_blank_contexts.
Proof.
  apply free_by_ticket_is_free_of_found.
  - distinct_by_cases.
  - reflexivity.
Defined.

Lemma em_fd_energy_at_lowest_sufficient_state_witness :
  exists cs,
    em_fd_energy sample_map_util_freq 64 {| cs_table := Some sample_table |}
      400 600
    = Some ((power cs * 600) mod 2 ^ 64 / capacity cs) /\
    ((exists l1 l2,
         state sample_table = l1 ++ cs :: l2 /\
         sample_map_util_freq 400 2000 1024 <= frequency cs /\
         (forall x, In x l1 ->
                    frequency x < sample_map_util_freq 400 2000 1024))
     \/
     (cs = last (state sample_table) (mk_cap_state 0 0 0) /\
      forall x, In x (state sample_table) ->
                frequency x < sample_map_util_freq 400 2000 1024)).
Proof.
  apply (proj2 em_fd_energy_at_lowest_sufficient_state
           sample_map_util_freq 64 sample_table 400 600 (mk_cap_state 0 0 0)).
  - reflexivity.
  - discriminate.
  - intros cs [<-|[<-|[<-|[]]]]; discriminate.
Defined.

Example em_fd_energy_on_sample :
  em_fd_energy sample_map_util_freq 64 {| cs_table := Some sample_table |}
    400 600 = Some 351 /\
  em_fd_energy sample_map_util_freq 64 {| cs_table := Some sample_table |}
    100 600 = Some 234 /\
  em_fd_energy sample_map_util_freq 64 {| cs_table := Some sample_table |}
    2000 600 = Some 527.
Proof. repeat split. Qed.
